(** * Personal Logger: the local persistence and entry-lifecycle layer

    A shallow embedding of the application script (class [LoggerDB] and the
    Alpine component [logger]) together with the part of the IndexedDB object
    model the two rely on: a versioned database, one object store with
    in-line keys and a key generator, a non-unique index and a cursor
    walking that index backwards.

    Conventions.
    - A JavaScript string is its sequence of UTF-16 code units.
    - A promise is modelled by the value it settles with ([Resolved] or
      [Rejected]); the operations of the component run one after the other,
      as the user interface issues them.
    - What the environment decides (the clock, whether the disk accepts an
      operation) is an explicit argument of the operation concerned. *)

From Stdlib Require Import ZArith NArith Lia DecimalString.
From stdpp Require Import base option list gmap strings sorting.

Set Default Proof Using "Type".

(** ** JavaScript strings *)

Definition jsstring := list N.

(** An ASCII literal as a JavaScript string. *)
Definition js (s : string) : jsstring :=
  Ascii.N_of_ascii <$> String.list_ascii_of_string s.

(** ECMAScript [WhiteSpace] and [LineTerminator] code points, the ones
    [String.prototype.trim] strips.  All of them are in the Basic
    Multilingual Plane, hence single code units. *)
Definition is_whitespace (c : N) : bool :=
  ((c =? 9) || (c =? 10) || (c =? 11) || (c =? 12) || (c =? 13) ||
   (c =? 32) || (c =? 160) || (c =? 5760) ||
   ((8192 <=? c) && (c <=? 8202)) ||
   (c =? 8232) || (c =? 8233) || (c =? 8239) || (c =? 8287) ||
   (c =? 12288) || (c =? 65279))%N.

Fixpoint trimStart (s : jsstring) : jsstring :=
  match s with
  | c :: s' => if is_whitespace c then trimStart s' else s
  | [] => []
  end.

Definition trimEnd (s : jsstring) : jsstring := rev (trimStart (rev s)).

(** [s.trim()] *)
Definition trim (s : jsstring) : jsstring := trimEnd (trimStart s).

(** [!s] for a string [s]: only the empty string is falsy. *)
Definition falsy (s : jsstring) : bool :=
  match s with [] => true | _ => false end.

(** Code-unit order on strings, the order IndexedDB keys of type string
    are compared in. *)
Fixpoint compare_strings (a b : jsstring) : comparison :=
  match a, b with
  | [], [] => Eq
  | [], _ :: _ => Lt
  | _ :: _, [] => Gt
  | x :: a', y :: b' =>
      match (x ?= y)%N with
      | Eq => compare_strings a' b'
      | c => c
      end
  end.

(** ** Entries *)

(** The object literal built by the component's [saveEntry]:
    [{ type, content, timestamp, synced }]. *)
Record Fields := {
  type : jsstring;
  content : jsstring;
  timestamp : jsstring;
  synced : bool
}.

(** An object handed to [IDBObjectStore.add]: the four fields, and an [id]
    property when the caller put one (a number) on the object. *)
Record EntryObject := {
  obj_id : option Z;
  obj_fields : Fields
}.

(** A stored record as a cursor returns it: the fields and the [id] property
    that holds the record's primary key (the store has key path ['id']). *)
Record Entry := {
  id : Z;
  fields : Fields
}.

Global Instance N_list_eq_dec : EqDecision jsstring := _.
Global Instance Fields_eq_dec : EqDecision Fields.
Proof. solve_decision. Defined.
Global Instance EntryObject_eq_dec : EqDecision EntryObject.
Proof. solve_decision. Defined.
Global Instance Entry_eq_dec : EqDecision Entry.
Proof. solve_decision. Defined.

(** ** The IndexedDB object model *)

Inductive Exception :=
  | TypeError | DataError | NotFoundError | VersionError
  | ConstraintError | AbortError | QuotaExceededError | UnknownError.

(** How a synchronous call completes. *)
Inductive Completion (A : Type) :=
  | Return (a : A)
  | Throw (e : Exception).
Arguments Return {A} a.
Arguments Throw {A} e.

(** What a promise settles with. *)
Inductive Promise (A : Type) :=
  | Resolved (a : A)
  | Rejected (e : Exception).
Arguments Resolved {A} a.
Arguments Rejected {A} e.

(** The final state of an [IDBRequest]: its [success] event with the
    result, or its [error] event. *)
Inductive Request (A : Type) :=
  | Succeeded (result : A)
  | Failed (error : Exception).
Arguments Succeeded {A} result.
Arguments Failed {A} error.

(** Whether the storage backend carries out the operation it is asked for
    (quota, permissions, corruption: nothing the program controls). *)
Inductive Disk := Healthy | Faulty.

(** Keys of the types this model needs.  IndexedDB orders every number
    before every string. *)
Inductive Key :=
  | KNumber (n : Z)
  | KString (s : jsstring).

Global Instance Key_eq_dec : EqDecision Key.
Proof. solve_decision. Defined.

Definition compare_keys (a b : Key) : comparison :=
  match a, b with
  | KNumber x, KNumber y => (x ?= y)%Z
  | KNumber _, KString _ => Lt
  | KString _, KNumber _ => Gt
  | KString x, KString y => compare_strings x y
  end.

Record Index := {
  idx_keyPath : string;
  unique : bool
}.

Record ObjectStore := {
  keyPath : string;
  autoIncrement : bool;
  indexes : list (string * Index);
  (** the records, by primary key; the value's [id] property is the key *)
  records : gmap Z Fields;
  (** the key generator's current number *)
  keyGenerator : Z
}.

Record Database := {
  db_version : Z;
  objectStores : list (string * ObjectStore)
}.

Global Instance Index_eq_dec : EqDecision Index.
Proof. solve_decision. Defined.
Global Instance ObjectStore_eq_dec : EqDecision ObjectStore.
Proof. solve_decision. Defined.
Global Instance Database_eq_dec : EqDecision Database.
Proof. solve_decision. Defined.

(** Lookup and update in a name-indexed list (object stores of a database,
    indexes of a store). *)
Fixpoint named {A} (n : string) (l : list (string * A)) : option A :=
  match l with
  | [] => None
  | (m, a) :: l' => if decide (m = n) then Some a else named n l'
  end.

Fixpoint set_named {A} (n : string) (a : A) (l : list (string * A))
  : list (string * A) :=
  match l with
  | [] => []
  | (m, b) :: l' =>
      if decide (m = n) then (m, a) :: l' else (m, b) :: set_named n a l'
  end.

Definition objectStoreNames (d : Database) : list string := (objectStores d).*1.
Definition indexNames (s : ObjectStore) : list string := (indexes s).*1.

(** [names.contains(n)] on a [DOMStringList] *)
Definition contains (n : string) (names : list string) : bool :=
  bool_decide (n ∈ names).

(** [db.createObjectStore(name, { keyPath, autoIncrement })]: a new, empty
    store whose key generator starts at 1. *)
Definition createObjectStore (name kp : string) (auto : bool) (d : Database)
  : Completion Database :=
  if contains name (objectStoreNames d) then Throw ConstraintError
  else Return {| db_version := db_version d;
                 objectStores := objectStores d ++
                   [(name, {| keyPath := kp; autoIncrement := auto;
                              indexes := []; records := ∅;
                              keyGenerator := 1 |})] |}.

(** [store.createIndex(name, keyPath, { unique })] on the store [store]
    of [d]. *)
Definition createIndex (store name kp : string) (uniq : bool) (d : Database)
  : Completion Database :=
  match named store (objectStores d) with
  | None => Throw NotFoundError
  | Some s =>
      if contains name (indexNames s) then Throw ConstraintError
      else
        let s' := {| keyPath := keyPath s; autoIncrement := autoIncrement s;
                     indexes := indexes s ++
                       [(name, {| idx_keyPath := kp; unique := uniq |})];
                     records := records s;
                     keyGenerator := keyGenerator s |} in
        Return {| db_version := db_version d;
                  objectStores := set_named store s' (objectStores d) |}
  end.

(** A database that does not exist yet has version 0 and no object store. *)
Definition no_database : Database :=
  {| db_version := 0; objectStores := [] |}.

(** [indexedDB.open(name, version)] with its [upgradeneeded] handler.  The
    call throws for a version that is not positive.  The database is
    upgraded when the requested version is above the stored one; an upgrade
    whose handler throws is aborted and leaves nothing behind. *)
Definition idb_open (name : string) (ver : Z)
    (upgrade : Database → Completion Database) (disk : Disk)
    (dbs : gmap string Database)
  : Completion (Request string * gmap string Database) :=
  if (ver <=? 0)%Z then Throw TypeError
  else Return
    match disk with
    | Faulty => (Failed UnknownError, dbs)
    | Healthy =>
        let d := default no_database (dbs !! name) in
        if (ver <? db_version d)%Z then (Failed VersionError, dbs)
        else if (db_version d <? ver)%Z then
          match upgrade {| db_version := ver;
                           objectStores := objectStores d |} with
          | Return d' => (Succeeded name, <[name := d']> dbs)
          | Throw _ => (Failed AbortError, dbs)
          end
        else (Succeeded name, dbs)
    end.

(** [db.transaction(names, mode)] throws when a named store is missing. *)
Definition transaction (names : list string) (d : Database) : Completion unit :=
  if forallb (λ n, contains n (objectStoreNames d)) names then Return ()
  else Throw NotFoundError.

(** *** Writing a record *)

Definition max_generated : Z := 2 ^ 53.

(** The key generator: it fails once its current number exceeds 2^53,
    otherwise it hands out the current number and moves to the next. *)
Definition generate_key (s : ObjectStore) : option (Z * Z) :=
  if (max_generated <? keyGenerator s)%Z then None
  else Some (keyGenerator s, (keyGenerator s + 1)%Z).

(** An explicit numeric key at or above the current number moves the
    generator past it. *)
Definition update_generator (k cur : Z) : Z :=
  let v := Z.min k max_generated in
  if (cur <=? v)%Z then (v + 1)%Z else cur.

(** The value of a property of a stored record, as a key; [None] when the
    property is absent or not a valid key (a boolean is not). *)
Definition extract_key (path : string) (e : Entry) : option Key :=
  if decide (path = "id") then Some (KNumber (id e))
  else if decide (path = "type") then Some (KString (type (fields e)))
  else if decide (path = "content") then Some (KString (content (fields e)))
  else if decide (path = "timestamp") then Some (KString (timestamp (fields e)))
  else None.

Definition stored (s : ObjectStore) : list Entry :=
  (λ p, {| id := p.1; fields := p.2 |}) <$> map_to_list (records s).

(** Whether adding [e] would give a unique index a second record with the
    same key. *)
Definition breaks_unique (e : Entry) (s : ObjectStore) : bool :=
  existsb (λ ix : string * Index,
    unique ix.2 &&
    match extract_key (idx_keyPath ix.2) e with
    | None => false
    | Some k =>
        existsb (λ e', bool_decide (extract_key (idx_keyPath ix.2) e' = Some k))
                (stored s)
    end) (indexes s).

(** [store.add(o)] inside a read-write transaction that holds nothing but
    this request.  The call throws when no key can be had for the object;
    otherwise it returns a request, and the transaction either commits with
    the new record or aborts and leaves the store (key generator included)
    as it was. *)
Definition add (disk : Disk) (o : EntryObject) (s : ObjectStore)
  : Completion (Request Z * ObjectStore) :=
  match obj_id o, autoIncrement s with
  | None, false => Throw DataError
  | _, _ =>
      Return
        match disk with
        | Faulty => (Failed QuotaExceededError, s)
        | Healthy =>
            let key :=
              match obj_id o with
              | Some k =>
                  Some (k, if autoIncrement s
                           then update_generator k (keyGenerator s)
                           else keyGenerator s)
              | None => generate_key s
              end in
            match key with
            | None => (Failed ConstraintError, s)
            | Some (k, gen) =>
                if decide (is_Some (records s !! k))
                then (Failed ConstraintError, s)
                else if breaks_unique {| id := k; fields := obj_fields o |} s
                then (Failed ConstraintError, s)
                else (Succeeded k,
                      {| keyPath := keyPath s;
                         autoIncrement := autoIncrement s;
                         indexes := indexes s;
                         records := <[k := obj_fields o]> (records s);
                         keyGenerator := gen |})
            end
        end
  end.

(** *** Reading through an index *)

(** The records of an index: one per stored record that has a key at the
    index's key path, ordered by that key and then by primary key. *)
Definition compare_index_records (a b : Key * Entry) : comparison :=
  match compare_keys a.1 b.1 with
  | Eq => (id a.2 ?= id b.2)%Z
  | c => c
  end.

Definition index_le (a b : Key * Entry) : Prop :=
  compare_index_records a b ≠ Gt.

Global Instance index_le_dec a b : Decision (index_le a b).
Proof. unfold index_le. apply _. Defined.

Definition index_records (ix : Index) (s : ObjectStore) : list (Key * Entry) :=
  merge_sort index_le
    (omap (λ e, (λ k, (k, e)) <$> extract_key (idx_keyPath ix) e) (stored s)).

Inductive Direction := next | prev.

(** [index.openCursor(null, direction)]: the values the cursor is
    positioned on, one [success] event after the other. *)
Definition openCursor (dir : Direction) (ix : Index) (s : ObjectStore)
  : list Entry :=
  match dir with
  | next => (index_records ix s).*2
  | prev => (reverse (index_records ix s)).*2
  end.

(** ** The world the program runs in *)

(** The calls made to the storage engine (the methods of [LoggerDB]), in
    the order they are made and whatever their outcome. *)
Inductive Call :=
  | CallInit
  | CallSaveEntry (entry : EntryObject)
  | CallGetRecentEntries (limit : option Z).

Record World := {
  (** the origin's databases, by name *)
  databases : gmap string Database;
  calls : list Call
}.

Definition called (c : Call) (w : World) : World :=
  {| databases := databases w; calls := calls w ++ [c] |}.

Definition database (name : string) (w : World) : Database :=
  default no_database (databases w !! name).

Definition put_store (name store : string) (s : ObjectStore) (w : World) : World :=
  let d := database name w in
  {| databases :=
       <[name := {| db_version := db_version d;
                    objectStores := set_named store s (objectStores d) |}]>
         (databases w);
     calls := calls w |}.

(** ** class LoggerDB *)

Module LoggerDB.

Record t := {
  dbName : string;
  version : Z;
  (** [this.db]: [None] is [null], [Some n] a connection to database [n] *)
  db : option string
}.

(** [constructor()] *)
Definition new : t :=
  {| dbName := "PersonalLogger"; version := 1; db := None |}.

(** [request.onupgradeneeded] *)
Definition onupgradeneeded (d : Database) : Completion Database :=
  if negb (contains "entries" (objectStoreNames d)) then
    match createObjectStore "entries" "id" true d with
    | Throw e => Throw e
    | Return d1 =>
        match createIndex "entries" "timestamp" "timestamp" false d1 with
        | Throw e => Throw e
        | Return d2 => createIndex "entries" "type" "type" false d2
        end
    end
  else Return d.

(** [async init()] *)
Definition init (disk : Disk) (w : World) (l : t) : Promise string * World * t :=
  let w := called CallInit w in
  match idb_open (dbName l) (version l) onupgradeneeded disk (databases w) with
  | Throw e => (Rejected e, w, l)
  | Return (r, dbs) =>
      let w' := {| databases := dbs; calls := calls w |} in
      match r with
      | Failed e => (Rejected e, w', l)
      | Succeeded conn =>
          (Resolved conn, w',
           {| dbName := dbName l; version := version l; db := Some conn |})
      end
  end.

(** [async saveEntry(entry)].  The promise settles as soon as the body
    has run: it is rejected when the body throws and otherwise resolved
    with the request that [store.add] returned, whatever becomes of that
    request. *)
Definition saveEntry (disk : Disk) (entry : EntryObject) (w : World) (l : t)
  : Promise (Request Z) * World :=
  let w := called (CallSaveEntry entry) w in
  match db l with
  | None => (Rejected TypeError, w)
  | Some conn =>
      match transaction ["entries"] (database conn w) with
      | Throw e => (Rejected e, w)
      | Return _ =>
          match named "entries" (objectStores (database conn w)) with
          | None => (Rejected NotFoundError, w)
          | Some store =>
              match add disk entry store with
              | Throw e => (Rejected e, w)
              | Return (r, store') =>
                  (Resolved r, put_store conn "entries" store' w)
              end
          end
      end
  end.

(** The [onsuccess] handler of the cursor request, run once per position
    of the cursor and a last time when the cursor is exhausted:
    [cursor] lists the values still ahead, [entries] is the array filled
    so far. *)
Fixpoint onsuccess (limit : Z) (cursor : list Entry) (entries : list Entry)
  : list Entry :=
  match cursor with
  | value :: cursor' =>
      if (Z.of_nat (length entries) <? limit)%Z
      then onsuccess limit cursor' (entries ++ [value])
      else entries
  | [] => entries
  end.

(** [async getRecentEntries(limit = 10)]; [None] is a missing
    argument. *)
Definition getRecentEntries (limit : option Z) (disk : Disk) (w : World) (l : t)
  : Promise (list Entry) * World :=
  let w := called (CallGetRecentEntries limit) w in
  let limit := default 10%Z limit in
  match db l with
  | None => (Rejected TypeError, w)
  | Some conn =>
      match transaction ["entries"] (database conn w) with
      | Throw e => (Rejected e, w)
      | Return _ =>
          match named "entries" (objectStores (database conn w)) with
          | None => (Rejected NotFoundError, w)
          | Some store =>
              match named "timestamp" (indexes store) with
              | None => (Rejected NotFoundError, w)
              | Some index =>
                  match disk with
                  | Faulty => (Rejected UnknownError, w)
                  | Healthy =>
                      (Resolved (onsuccess limit (openCursor prev index store) []),
                       w)
                  end
              end
          end
      end
  end.

End LoggerDB.

(** ** The Alpine component [logger] *)

Module Logger.

(** The part of the component's state the persistence path reads or
    writes. *)
Record t := {
  showModal : bool;
  currentType : jsstring;
  entryText : jsstring;
  isLoading : bool;
  showToast : bool;
  toastMessage : jsstring;
  recentEntries : list Entry;
  db : LoggerDB.t
}.

Definition new : t :=
  {| showModal := false; currentType := []; entryText := [];
     isLoading := false; showToast := false; toastMessage := [];
     recentEntries := []; db := LoggerDB.new |}.

Definition set_isLoading (b : bool) (c : t) : t :=
  {| showModal := showModal c; currentType := currentType c;
     entryText := entryText c; isLoading := b; showToast := showToast c;
     toastMessage := toastMessage c; recentEntries := recentEntries c;
     db := db c |}.

Definition set_recentEntries (l : list Entry) (c : t) : t :=
  {| showModal := showModal c; currentType := currentType c;
     entryText := entryText c; isLoading := isLoading c;
     showToast := showToast c; toastMessage := toastMessage c;
     recentEntries := l; db := db c |}.

Definition set_db (l : LoggerDB.t) (c : t) : t :=
  {| showModal := showModal c; currentType := currentType c;
     entryText := entryText c; isLoading := isLoading c;
     showToast := showToast c; toastMessage := toastMessage c;
     recentEntries := recentEntries c; db := l |}.

(** The text area is bound to [entryText]: the user typing. *)
Definition set_entryText (s : jsstring) (c : t) : t :=
  {| showModal := showModal c; currentType := currentType c;
     entryText := s; isLoading := isLoading c; showToast := showToast c;
     toastMessage := toastMessage c; recentEntries := recentEntries c;
     db := db c |}.

(** [showToastMessage(message)]; the timer that hides the toast again is
    left out. *)
Definition showToastMessage (message : jsstring) (c : t) : t :=
  {| showModal := showModal c; currentType := currentType c;
     entryText := entryText c; isLoading := isLoading c; showToast := true;
     toastMessage := message; recentEntries := recentEntries c;
     db := db c |}.

(** [quickEntry(type)] *)
Definition quickEntry (ty : jsstring) (c : t) : t :=
  {| showModal := true; currentType := ty; entryText := [];
     isLoading := isLoading c; showToast := showToast c;
     toastMessage := toastMessage c; recentEntries := recentEntries c;
     db := db c |}.

(** [closeModal()] *)
Definition closeModal (c : t) : t :=
  {| showModal := false; currentType := []; entryText := [];
     isLoading := isLoading c; showToast := showToast c;
     toastMessage := toastMessage c; recentEntries := recentEntries c;
     db := db c |}.

(** [useTemplate(template)] *)
Definition useTemplate (template : jsstring) (c : t) : t :=
  set_entryText template c.

(** [async loadRecentEntries()] *)
Definition loadRecentEntries (disk : Disk) (w : World) (c : t) : World * t :=
  match LoggerDB.getRecentEntries (Some 10%Z) disk w (db c) with
  | (Resolved l, w') => (w', set_recentEntries l c)
  | (Rejected _, w') => (w', c)
  end.

(** [async init()]; [open] and [read] say how the disk treats the two
    storage operations of the call.  Registering the network listeners
    and writing to the console touch nothing of the state above. *)
Definition init (open read : Disk) (w : World) (c : t) : World * t :=
  match LoggerDB.init open w (db c) with
  | (Resolved _, w', l) => loadRecentEntries read w' (set_db l c)
  | (Rejected _, w', l) =>
      (w', showToastMessage (js "Failed to initialize app") (set_db l c))
  end.

(** [async saveEntry()]; [now] is [new Date().toISOString()] at the time
    of the call, [write] and [read] say how the disk treats the two
    storage operations.  The vibration after a save is left out. *)
Definition saveEntry (now : jsstring) (write read : Disk) (w : World) (c : t)
  : World * t :=
  if falsy (trim (entryText c)) then
    (w, showToastMessage (js "Please enter some text") c)
  else
    let c := set_isLoading true c in
    let entry :=
      {| obj_id := None;
         obj_fields := {| type := currentType c;
                          content := trim (entryText c);
                          timestamp := now;
                          synced := false |} |} in
    match LoggerDB.saveEntry write entry w (db c) with
    | (Resolved _, w') =>
        let '(w'', c) := loadRecentEntries read w' c in
        let c := closeModal c in
        let c := showToastMessage (js "Entry saved successfully") c in
        (w'', set_isLoading false c)
    | (Rejected _, w') =>
        let c := showToastMessage (js "Failed to save entry") c in
        (w', set_isLoading false c)
    end.

End Logger.

(** ** Notions used in the statements *)

Definition timestamp_index : Index :=
  {| idx_keyPath := "timestamp"; unique := false |}.

Definition type_index : Index :=
  {| idx_keyPath := "type"; unique := false |}.

(** The schema [LoggerDB.init] gives the store ['entries']. *)
Definition entries_schema (s : ObjectStore) : Prop :=
  keyPath s = "id" ∧ autoIncrement s = true ∧
  indexes s = [("timestamp", timestamp_index); ("type", type_index)].

(** The store ['entries'] as [LoggerDB.init] creates it. *)
Definition empty_entries : ObjectStore :=
  {| keyPath := "id"; autoIncrement := true;
     indexes := [("timestamp", timestamp_index); ("type", type_index)];
     records := ∅; keyGenerator := 1 |}.

(** The store ['entries'] as the connection held by [l] sees it. *)
Definition entries_store (w : World) (l : LoggerDB.t) : option ObjectStore :=
  match LoggerDB.db l with
  | None => None
  | Some conn => named "entries" (objectStores (database conn w))
  end.

(** [l] holds a connection to a database whose store ['entries'] is [s],
    with the schema of [LoggerDB.init]. *)
Definition opened (w : World) (l : LoggerDB.t) (s : ObjectStore) : Prop :=
  entries_store w l = Some s ∧ entries_schema s.

(** [a] comes before [b] in the recency order: a later timestamp, or the
    same timestamp and a higher id. *)
Definition precedes (a b : Entry) : Prop :=
  compare_strings (timestamp (fields a)) (timestamp (fields b)) = Gt ∨
  (timestamp (fields a) = timestamp (fields b) ∧ (id b < id a)%Z).

(** The identifiers of the records a script of [saveEntry] calls gets
    stored, in the order they are assigned. *)
Definition assigned (r : Promise (Request Z)) : option Z :=
  match r with
  | Resolved (Succeeded k) => Some k
  | _ => None
  end.

Fixpoint saveAll (script : list (Disk * EntryObject)) (w : World) (l : LoggerDB.t)
  : list (Promise (Request Z)) * World :=
  match script with
  | [] => ([], w)
  | (disk, entry) :: script' =>
      let '(r, w') := LoggerDB.saveEntry disk entry w l in
      let '(rs, w'') := saveAll script' w' l in
      (r :: rs, w'')
  end.

(** Whether a call of [LoggerDB.saveEntry] got its record stored. *)
Definition committed (r : Promise (Request Z)) : bool :=
  match assigned r with Some _ => true | None => false end.

(** The key generator is ahead of every stored id, as it is in every store
    whose ids it handed out itself. *)
Definition generator_ahead (s : ObjectStore) : Prop :=
  ∀ k, is_Some (records s !! k) → (k < keyGenerator s)%Z.

(** The ids the key generator handed out in a run of [saveAll]: those of
    the stored objects that carried no id of their own. *)
Fixpoint generated (script : list (Disk * EntryObject))
    (rs : list (Promise (Request Z))) : list Z :=
  match script, rs with
  | (_, entry) :: script', r :: rs' =>
      match obj_id entry, assigned r with
      | None, Some k => k :: generated script' rs'
      | _, _ => generated script' rs'
      end
  | _, _ => []
  end.

(** The object the component's [saveEntry] builds. *)
Definition entry_of (now : jsstring) (c : Logger.t) : EntryObject :=
  {| obj_id := None;
     obj_fields := {| type := Logger.currentType c;
                      content := trim (Logger.entryText c);
                      timestamp := now;
                      synced := false |} |}.

(** The ids in the store ['entries'], and its key generator's current
    number. *)
Definition ids_of (w : World) (l : LoggerDB.t) : gset Z :=
  match entries_store w l with
  | Some s => dom (records s)
  | None => ∅
  end.

Definition generator_of (w : World) (l : LoggerDB.t) : Z :=
  match entries_store w l with
  | Some s => keyGenerator s
  | None => 0
  end.

(** ** Sample states *)

(** An origin without any database, and one where the program has stored
    two entries. *)
Definition fresh : World := {| databases := ∅; calls := [] |}.

Definition monday : Fields :=
  {| type := js "task"; content := js "Restock supplies";
     timestamp := js "2025-06-02T08:15:00.000Z"; synced := false |}.

Definition tuesday : Fields :=
  {| type := js "note"; content := js "Shift handover";
     timestamp := js "2025-06-03T17:40:00.000Z"; synced := false |}.

Definition two_entries : ObjectStore :=
  {| keyPath := "id"; autoIncrement := true;
     indexes := [("timestamp", timestamp_index); ("type", type_index)];
     records := <[2%Z := tuesday]> (<[1%Z := monday]> ∅);
     keyGenerator := 3 |}.

Definition in_use : World :=
  {| databases :=
       {[ "PersonalLogger" :=
            {| db_version := 1; objectStores := [("entries", two_entries)] |} ]};
     calls := [] |}.

Definition connected : LoggerDB.t :=
  {| LoggerDB.dbName := "PersonalLogger"; LoggerDB.version := 1;
     LoggerDB.db := Some "PersonalLogger" |}.

(** ** The states the program reaches *)

(** What the user and the page do to the component, one step at a time. *)
Inductive step : World * Logger.t → World * Logger.t → Prop :=
  | step_init open read w c :
      step (w, c) (Logger.init open read w c)
  | step_quickEntry ty w c :
      step (w, c) (w, Logger.quickEntry ty c)
  | step_input text w c :
      step (w, c) (w, Logger.set_entryText text c)
  | step_useTemplate template w c :
      step (w, c) (w, Logger.useTemplate template c)
  | step_closeModal w c :
      step (w, c) (w, Logger.closeModal c)
  | step_saveEntry now write read w c :
      step (w, c) (Logger.saveEntry now write read w c).

(** The database of the program is absent, or it is as the program makes
    it: version 1, the one store with the schema of [init], and a key
    generator ahead of the stored ids. *)
Definition well_kept (w : World) : Prop :=
  match databases w !! "PersonalLogger" with
  | None => True
  | Some d =>
      db_version d = 1%Z ∧
      ∃ s, objectStores d = [("entries", s)] ∧ entries_schema s ∧
           generator_ahead s
  end.

(** The component's [LoggerDB] is as constructed, or connected; connected
    only to a database that exists. *)
Definition consistent (x : World * Logger.t) : Prop :=
  well_kept x.1 ∧
  (Logger.db x.2 = LoggerDB.new ∨
   (Logger.db x.2 = connected ∧ is_Some (databases x.1 !! "PersonalLogger"))).

(** ** The rest of the component *)

(** [`${n}`] for an integer [n] *)
Definition number (n : Z) : jsstring := js (NilZero.string_of_int (Z.to_int n)).

(** [formatTime(timestamp)].  [date] is the time value of
    [new Date(timestamp)] in milliseconds, [None] when the string does not
    parse (the time value is NaN, and every comparison with it is false);
    [now] is the time value of [new Date()].  [toLocaleDateString] renders
    a date in the locale of the browser.  [Math.floor] of a quotient is
    [Z.div], which rounds down. *)
Definition formatTime (toLocaleDateString : option Z → jsstring)
    (date : option Z) (now : Z) : jsstring :=
  match date with
  | None => toLocaleDateString None
  | Some t =>
      let diffMs := (now - t)%Z in
      let diffMins := (diffMs `div` 60000)%Z in
      if (diffMins <? 1)%Z then js "Just now"
      else if (diffMins <? 60)%Z then number diffMins ++ js "m ago"
      else if (diffMins <? 1440)%Z then number (diffMins `div` 60) ++ js "h ago"
      else toLocaleDateString date
  end.

(** [showToastMessage] with its timer.  Every call leaves a timeout
    pending; a timeout that fires hides the toast, whichever message it
    shows.  All timeouts do the same, so their number is all there is to
    know of them. *)
Module Toast.

Record t := {
  page : Logger.t;
  (** the timeouts set by [showToastMessage] that have not fired yet *)
  pending : nat
}.

(** The callback of [setTimeout]: [this.showToast = false] *)
Definition hide (c : Logger.t) : Logger.t :=
  {| Logger.showModal := Logger.showModal c;
     Logger.currentType := Logger.currentType c;
     Logger.entryText := Logger.entryText c;
     Logger.isLoading := Logger.isLoading c;
     Logger.showToast := false;
     Logger.toastMessage := Logger.toastMessage c;
     Logger.recentEntries := Logger.recentEntries c;
     Logger.db := Logger.db c |}.

(** [showToastMessage(message)] *)
Definition showToastMessage (message : jsstring) (x : t) : t :=
  {| page := Logger.showToastMessage message (page x);
     pending := S (pending x) |}.

(** One of the pending timeouts fires. *)
Definition timeout (x : t) : t :=
  match pending x with
  | O => x
  | S n => {| page := hide (page x); pending := n |}
  end.

Inductive event :=
  | Shown (message : jsstring)
  | Elapsed.

Definition handle (x : t) (e : event) : t :=
  match e with
  | Shown message => showToastMessage message x
  | Elapsed => timeout x
  end.

Definition run (events : list event) (x : t) : t := foldl handle x events.

End Toast.

(** Voice input: [startVoiceInput] and the handlers it gives the
    recognition. *)
Module Voice.

Record t := {
  page : Logger.t;
  isRecording : bool;
  voiceSupported : bool
}.

(** [startVoiceInput()] *)
Definition startVoiceInput (x : t) : t :=
  if negb (voiceSupported x) then
    {| page := Logger.showToastMessage (js "Voice input not supported") (page x);
       isRecording := isRecording x; voiceSupported := voiceSupported x |}
  else
    {| page := page x; isRecording := true; voiceSupported := voiceSupported x |}.

(** [recognition.onresult], with [event.results[0][0].transcript] *)
Definition onresult (transcript : jsstring) (x : t) : t :=
  {| page := Logger.set_entryText transcript (page x);
     isRecording := false; voiceSupported := voiceSupported x |}.

(** [recognition.onerror] *)
Definition onerror (x : t) : t :=
  {| page := Logger.showToastMessage (js "Voice input failed") (page x);
     isRecording := false; voiceSupported := voiceSupported x |}.

(** [recognition.onend] *)
Definition onend (x : t) : t :=
  {| page := page x; isRecording := false; voiceSupported := voiceSupported x |}.

End Voice.

(** ** The Express server *)

Module Server.

(** What the middleware reads of a request. *)
Record Req := {
  (** [req.header('x-forwarded-proto')], [None] when the header is absent *)
  forwardedProto : option jsstring;
  (** [req.header('host')] *)
  host : option jsstring;
  url : jsstring
}.

Inductive Action :=
  | Redirect (location : jsstring)
  | Next.

(** What the middleware does to the response: the headers it sets, in
    order, and whether it redirects or passes the request on. *)
Record Res := {
  headers : list (jsstring * jsstring);
  action : Action
}.

(** A value inside a template literal: an absent one reads 'undefined'. *)
Definition interpolate (v : option jsstring) : jsstring :=
  default (js "undefined") v.

(** The middleware that sets the security headers; [NODE_ENV] is
    [process.env.NODE_ENV]. *)
Definition securityHeaders (NODE_ENV : option jsstring) (req : Req) : Res :=
  if bool_decide (NODE_ENV = Some (js "production")) &&
     negb (bool_decide (forwardedProto req = Some (js "https")))
  then
    {| headers := [];
       action := Redirect (js "https://" ++ interpolate (host req) ++ url req) |}
  else
    {| headers :=
         [ (js "X-Content-Type-Options", js "nosniff");
           (js "X-Frame-Options", js "DENY");
           (js "X-XSS-Protection", js "1; mode=block");
           (js "Referrer-Policy", js "strict-origin-when-cross-origin") ] ++
         (if bool_decide (url req = js "/sw.js")
          then [ (js "Cache-Control", js "no-cache, no-store, must-revalidate");
                 (js "Service-Worker-Allowed", js "/") ]
          else []) ++
         (if bool_decide (url req = js "/manifest.json")
          then [ (js "Content-Type", js "application/manifest+json") ]
          else []);
       action := Next |}.

End Server.

(** ** Notions used in the further properties *)

(** The store after the key generator's number went to a new record with
    the fields [f]. *)
Definition next_store (s : ObjectStore) (f : Fields) : ObjectStore :=
  {| keyPath := keyPath s; autoIncrement := autoIncrement s;
     indexes := indexes s;
     records := <[keyGenerator s := f]> (records s);
     keyGenerator := (keyGenerator s + 1)%Z |}.

(** The records of the program's store; none while the database is
    absent. *)
Definition kept (w : World) : gmap Z Fields :=
  match entries_store w connected with
  | Some s => records s
  | None => ∅
  end.

(** [P] holds of the program's store, if there is one. *)
Definition store_holds (P : ObjectStore → Prop) (w : World) : Prop :=
  ∀ d s, databases w !! "PersonalLogger" = Some d →
         objectStores d = [("entries", s)] → P s.

(** The ids are 1, 2, ..., n without a gap, and the key generator is at
    n + 1. *)
Definition dense (s : ObjectStore) : Prop :=
  keyGenerator s = (Z.of_nat (size (records s)) + 1)%Z ∧
  ∀ k, is_Some (records s !! k) ↔ (1 ≤ k ≤ Z.of_nat (size (records s)))%Z.

(** Fields as the component writes them: not synced, and a content that is
    not empty and has no white space at either end. *)
Definition normalized (f : Fields) : Prop :=
  synced f = false ∧ content f ≠ [] ∧ trim (content f) = content f.

(** What the list of the component is allowed to look like next to the
    world: at most ten entries, in recency order, each of them stored. *)
Definition shown (x : World * Logger.t) : Prop :=
  length (Logger.recentEntries x.2) ≤ 10 ∧
  StronglySorted precedes (Logger.recentEntries x.2) ∧
  ∀ e, e ∈ Logger.recentEntries x.2 → kept x.1 !! id e = Some (fields e).

(** The user saves one entry after the other: each time a type is chosen,
    a text typed, and [saveEntry] runs at clock value [now] on a healthy
    disk. *)
Fixpoint saveMany (script : list (jsstring * jsstring * jsstring))
    (w : World) (c : Logger.t) : World * Logger.t :=
  match script with
  | [] => (w, c)
  | (ty, text, now) :: script' =>
      let '(w', c') :=
        Logger.saveEntry now Healthy Healthy w
          (Logger.set_entryText text (Logger.quickEntry ty c)) in
      saveMany script' w' c'
  end.

(** The entries such a script stores when the first id is [k]. *)
Fixpoint entries_from (k : Z) (script : list (jsstring * jsstring * jsstring))
  : list Entry :=
  match script with
  | [] => []
  | (ty, text, now) :: script' =>
      {| id := k;
         fields := {| type := ty; content := trim text; timestamp := now;
                      synced := false |} |} :: entries_from (k + 1) script'
  end.

(** A run of the component on an origin without database: start-up, then
    two entries saved, the second while the clock shows an earlier time. *)
Definition started : World * Logger.t :=
  Logger.init Healthy Healthy fresh Logger.new.

Definition saved_once : World * Logger.t :=
  Logger.saveEntry (js "2025-06-04T09:00:00.000Z") Healthy Healthy started.1
    (Logger.set_entryText (js "  Spill in aisle 3  ")
       (Logger.quickEntry (js "issue") started.2)).

Definition saved_twice : World * Logger.t :=
  Logger.saveEntry (js "2025-06-03T23:30:00.000Z") Healthy Healthy saved_once.1
    (Logger.set_entryText (js "Call supplier")
       (Logger.quickEntry (js "task") saved_once.2)).

(** * Properties *)

(** ** The order of keys *)

Section StringOrder.

Lemma compare_strings_refl a : compare_strings a a = Eq.
Proof. induction a as [|x a IH]; simpl; [done|]. by rewrite N.compare_refl. Qed.

Lemma compare_strings_eq a b : compare_strings a b = Eq → a = b.
Proof.
  revert b. induction a as [|x a IH]; intros [|y b]; simpl; try done.
  destruct (N.compare_spec x y); try done.
  intros ?; subst; f_equal; auto.
Qed.

Lemma compare_strings_antisym a b :
  compare_strings b a = CompOpp (compare_strings a b).
Proof.
  revert b. induction a as [|x a IH]; intros [|y b]; simpl; try done.
  rewrite (N.compare_antisym x y).
  destruct (x ?= y)%N; simpl; auto.
Qed.

Lemma compare_strings_lt_trans a b c :
  compare_strings a b = Lt → compare_strings b c = Lt →
  compare_strings a c = Lt.
Proof.
  revert b c. induction a as [|x a IH]; intros [|y b] [|z c]; simpl; try done.
  destruct (N.compare_spec x y), (N.compare_spec y z), (N.compare_spec x z);
    try done; intros; subst; try lia; eauto.
Qed.

End StringOrder.

Section KeyOrder.

Lemma compare_keys_refl a : compare_keys a a = Eq.
Proof.
  destruct a; simpl; [apply Z.compare_refl | apply compare_strings_refl].
Qed.

Lemma compare_keys_eq a b : compare_keys a b = Eq → a = b.
Proof.
  destruct a, b; simpl; try done.
  - intros ?%Z.compare_eq; by subst.
  - intros ?%compare_strings_eq; by subst.
Qed.

Lemma compare_keys_antisym a b : compare_keys b a = CompOpp (compare_keys a b).
Proof.
  destruct a, b; simpl; try done.
  - apply Z.compare_antisym.
  - apply compare_strings_antisym.
Qed.

Lemma compare_keys_lt_trans a b c :
  compare_keys a b = Lt → compare_keys b c = Lt → compare_keys a c = Lt.
Proof.
  destruct a, b, c; simpl; try done.
  - rewrite !Z.compare_lt_iff. lia.
  - apply compare_strings_lt_trans.
Qed.

(** The order of index records: by key, then by primary key. *)
Lemma compare_index_records_lt a b :
  compare_index_records a b = Lt ↔
  compare_keys a.1 b.1 = Lt ∨ (a.1 = b.1 ∧ (id a.2 < id b.2)%Z).
Proof.
  unfold compare_index_records.
  destruct (compare_keys a.1 b.1) eqn:E.
  - apply compare_keys_eq in E. rewrite Z.compare_lt_iff. split.
    + intros H. by right.
    + by intros [?|[_ ?]].
  - split; [by left|done].
  - split; [done|]. intros [?|[E' ?]]; [done|].
    rewrite E', compare_keys_refl in E. done.
Qed.

Lemma compare_index_records_eq a b :
  compare_index_records a b = Eq ↔ a.1 = b.1 ∧ id a.2 = id b.2.
Proof.
  unfold compare_index_records.
  destruct (compare_keys a.1 b.1) eqn:E.
  - apply compare_keys_eq in E. rewrite Z.compare_eq_iff. split.
    + by intros H.
    + by intros [_ ?].
  - split; [done|]. intros [E' ?]. by rewrite E', compare_keys_refl in E.
  - split; [done|]. intros [E' ?]. by rewrite E', compare_keys_refl in E.
Qed.

Lemma compare_index_records_antisym a b :
  compare_index_records b a = CompOpp (compare_index_records a b).
Proof.
  unfold compare_index_records.
  rewrite (compare_keys_antisym a.1 b.1), (Z.compare_antisym (id a.2) (id b.2)).
  by destruct (compare_keys a.1 b.1).
Qed.

Lemma compare_index_records_lt_trans a b c :
  compare_index_records a b = Lt → compare_index_records b c = Lt →
  compare_index_records a c = Lt.
Proof.
  rewrite !compare_index_records_lt.
  intros [H1|[E1 H1]] [H2|[E2 H2]].
  - left. eauto using compare_keys_lt_trans.
  - left. by rewrite <-E2.
  - left. by rewrite E1.
  - right. split; [congruence|lia].
Qed.

Global Instance index_le_total : Total index_le.
Proof.
  intros a b. unfold index_le.
  rewrite (compare_index_records_antisym a b).
  destruct (compare_index_records a b); simpl; auto.
Qed.

Global Instance index_le_trans : Transitive index_le.
Proof.
  intros a b c. unfold index_le.
  destruct (compare_index_records a b) eqn:E1; [| |done];
    destruct (compare_index_records b c) eqn:E2; try done; intros _ _.
  - apply compare_index_records_eq in E1 as [E1 E1'].
    apply compare_index_records_eq in E2 as [E2 E2'].
    assert (compare_index_records a c = Eq) as ->; [|done].
    apply compare_index_records_eq. split; congruence.
  - apply compare_index_records_eq in E1 as [E1 E1'].
    assert (compare_index_records a c = Lt) as ->; [|done].
    apply compare_index_records_lt. apply compare_index_records_lt in E2.
    rewrite E1, E1'. done.
  - apply compare_index_records_eq in E2 as [E2 E2'].
    assert (compare_index_records a c = Lt) as ->; [|done].
    apply compare_index_records_lt. apply compare_index_records_lt in E1.
    rewrite <-E2, <-E2'. done.
  - by rewrite (compare_index_records_lt_trans a b c).
Qed.

End KeyOrder.

(** ** Reading through the timestamp index *)

Section Recency.

Implicit Types (s : ObjectStore) (e : Entry) (es : list Entry).

Lemma stored_ids_NoDup s : NoDup (id <$> stored s).
Proof.
  unfold stored. rewrite <-list_fmap_compose.
  apply (NoDup_fst_map_to_list (records s)).
Qed.

Lemma length_stored s : length (stored s) = size (records s).
Proof. unfold stored. by rewrite length_fmap, length_map_to_list. Qed.

Lemma elem_of_stored s e :
  e ∈ stored s ↔ records s !! id e = Some (fields e).
Proof.
  unfold stored. rewrite list_elem_of_fmap. split.
  - intros [[k f] [-> H]]. by apply elem_of_map_to_list in H.
  - intros H. exists (id e, fields e). split; [by destruct e|].
    by apply elem_of_map_to_list.
Qed.

(** Every stored record has a timestamp key, so the index holds them
    all. *)
Lemma timestamp_index_records s :
  index_records timestamp_index s ≡ₚ
  (λ e, (KString (timestamp (fields e)), e)) <$> stored s.
Proof.
  unfold index_records. rewrite merge_sort_Permutation.
  induction (stored s) as [|e es IH]; [done|].
  simpl. by rewrite IH.
Qed.

Lemma index_records_sorted ix s : StronglySorted index_le (index_records ix s).
Proof. apply StronglySorted_merge_sort; apply _. Qed.

Lemma index_records_ids_NoDup s :
  NoDup ((λ r : Key * Entry, id r.2) <$> index_records timestamp_index s).
Proof.
  rewrite timestamp_index_records, <-list_fmap_compose.
  apply stored_ids_NoDup.
Qed.

Lemma StronglySorted_NoDup_strict {A B} (R : relation A) (f : A → B) (l : list A) :
  StronglySorted R l → NoDup (f <$> l) →
  StronglySorted (λ a b, R a b ∧ f a ≠ f b) l.
Proof.
  induction 1 as [|a l Hs IH Hall]; intros Hnd; [constructor|].
  apply NoDup_cons in Hnd as [Hnotin Hnd].
  constructor; [auto|].
  apply Forall_forall. intros b Hb. split.
  - by eapply Forall_forall in Hall.
  - intros Heq. apply Hnotin. rewrite Heq. by apply list_elem_of_fmap_2.
Qed.

Lemma StronglySorted_take {A} (R : relation A) (l : list A) n :
  StronglySorted R l → StronglySorted R (take n l).
Proof.
  intros H. rewrite <-(take_drop n l) in H.
  by apply StronglySorted_app_1_l in H.
Qed.

Lemma StronglySorted_reverse {A} (R : relation A) (l : list A) :
  StronglySorted R l → StronglySorted (flip R) (reverse l).
Proof.
  induction 1 as [|a l Hs IH Hall].
  - rewrite reverse_nil. constructor.
  - rewrite reverse_cons. apply StronglySorted_app_2; [|done|repeat constructor].
    intros x y Hx ->%list_elem_of_singleton.
    rewrite elem_of_reverse in Hx. rewrite Forall_forall in Hall.
    by apply Hall.
Qed.

(** The cursor walks the timestamp index from the latest timestamp down,
    and within a timestamp from the highest id down. *)
Lemma openCursor_prev_sorted s :
  StronglySorted precedes (openCursor prev timestamp_index s).
Proof.
  unfold openCursor.
  pose proof (index_records_sorted timestamp_index s) as Hs.
  pose proof (index_records_ids_NoDup s) as Hnd.
  pose proof (timestamp_index_records s) as Hperm.
  eapply StronglySorted_NoDup_strict in Hs; [|exact Hnd].
  apply StronglySorted_reverse in Hs.
  assert (Forall (λ r : Key * Entry, r.1 = KString (timestamp (fields r.2)))
            (reverse (index_records timestamp_index s))) as Hkeys.
  { apply Forall_forall. intros r Hr. rewrite elem_of_reverse in Hr.
    rewrite Hperm in Hr. apply list_elem_of_fmap in Hr as [e [-> _]]. done. }
  revert Hs Hkeys. generalize (reverse (index_records timestamp_index s)).
  intros l Hs. induction Hs as [|r l Hs IH Hall]; intros Hkeys; [constructor|].
  apply Forall_cons in Hkeys as [Hr Hkeys].
  csimpl. constructor; [auto|].
  apply Forall_fmap, Forall_forall. intros r' Hr'.
  eapply Forall_forall in Hall; [|exact Hr'].
  eapply Forall_forall in Hkeys; [|exact Hr'].
  destruct Hall as [Hle Hne]. unfold index_le in Hle. simpl.
  destruct (compare_index_records r' r) eqn:E; [| |done].
  - apply compare_index_records_eq in E as [_ E]. done.
  - apply compare_index_records_lt in E. rewrite Hr, Hkeys in E. simpl in E.
    unfold precedes. destruct E as [E|[E ?]].
    + left. rewrite compare_strings_antisym, E. done.
    + right. split; [congruence|done].
Qed.

Lemma length_openCursor_prev s :
  length (openCursor prev timestamp_index s) = size (records s).
Proof.
  unfold openCursor.
  rewrite length_fmap, length_reverse, timestamp_index_records, length_fmap.
  apply length_stored.
Qed.

Lemma elem_of_openCursor_prev s e :
  e ∈ openCursor prev timestamp_index s ↔ e ∈ stored s.
Proof.
  unfold openCursor. rewrite list_elem_of_fmap. split.
  - intros [r [-> Hr]]. rewrite elem_of_reverse in Hr.
    rewrite timestamp_index_records in Hr.
    by apply list_elem_of_fmap in Hr as [e' [-> ?]].
  - intros He. exists (KString (timestamp (fields e)), e). split; [done|].
    rewrite elem_of_reverse, timestamp_index_records.
    by apply (list_elem_of_fmap_2 (λ e, (KString (timestamp (fields e)), e))).
Qed.

(** The cursor loop keeps the first [limit] values and stops. *)
Lemma onsuccess_take limit cursor es :
  LoggerDB.onsuccess limit cursor es =
  es ++ take (Z.to_nat limit - length es) cursor.
Proof.
  revert es. induction cursor as [|v cursor IH]; intros es; simpl.
  - by rewrite take_nil, app_nil_r.
  - destruct (Z.ltb_spec (Z.of_nat (length es)) limit).
    + rewrite IH, length_app. simpl.
      replace (Z.to_nat limit - length es) with (S (Z.to_nat limit - (length es + 1)))
        by lia.
      simpl. by rewrite <-app_assoc.
    + replace (Z.to_nat limit - length es) with 0 by lia.
      by rewrite app_nil_r.
Qed.

Lemma named_contains {A} n (l : list (string * A)) a :
  named n l = Some a → contains n (l.*1) = true.
Proof.
  unfold contains. intros H. apply bool_decide_eq_true.
  induction l as [|[m b] l IH]; [done|]. simpl in *.
  destruct (decide (m = n)) as [->|]; [left|right; auto].
Qed.

Lemma transaction_entries d s :
  named "entries" (objectStores d) = Some s →
  transaction ["entries"] d = Return ().
Proof.
  intros H. unfold transaction. simpl.
  unfold objectStoreNames. by rewrite (named_contains _ _ _ H).
Qed.

(** What [getRecentEntries] returns on an opened database. *)
Lemma getRecentEntries_opened w l s limit :
  opened w l s →
  LoggerDB.getRecentEntries limit Healthy w l =
  (Resolved (take (Z.to_nat (default 10%Z limit))
               (openCursor prev timestamp_index s)),
   called (CallGetRecentEntries limit) w).
Proof.
  intros [Hs (_ & _ & Hix)]. unfold entries_store in Hs.
  unfold LoggerDB.getRecentEntries.
  destruct (LoggerDB.db l) as [conn|]; [|done].
  change (database conn (called (CallGetRecentEntries limit) w))
    with (database conn w).
  rewrite (transaction_entries _ _ Hs), Hs, Hix. simpl.
  rewrite onsuccess_take. simpl. by rewrite Nat.sub_0_r.
Qed.

End Recency.

(** ** The recency query *)

Arguments openCursor : simpl never.

(** C1.  On every opened store and for every positive limit,
    [getRecentEntries] returns a sequence in which each entry precedes all
    the entries after it: its timestamp is later, or the timestamps are
    equal and its id is higher. *)
Theorem listRecent_descending w l s limit :
  opened w l s → (0 < limit)%Z →
  ∃ es, (LoggerDB.getRecentEntries (Some limit) Healthy w l).1 = Resolved es ∧
        StronglySorted precedes es.
Proof.
  intros Hop _. rewrite (getRecentEntries_opened _ _ _ _ Hop). simpl.
  eexists; split; [done|].
  apply StronglySorted_take, openCursor_prev_sorted.
Qed.

Lemma listRecent_descending_witness :
  ∃ es, (LoggerDB.getRecentEntries (Some 2%Z) Healthy in_use connected).1
        = Resolved es ∧
        StronglySorted precedes es.
Proof.
  apply (listRecent_descending in_use connected two_entries 2).
  - split; [reflexivity | repeat split].
  - lia.
Defined.

(** C2.  On every opened store and for every positive limit,
    [getRecentEntries] returns exactly min(limit, number of stored records)
    entries, and the empty sequence (not an error) on an empty store. *)
Theorem listRecent_length w l s limit :
  opened w l s → (0 < limit)%Z →
  ∃ es, (LoggerDB.getRecentEntries (Some limit) Healthy w l).1 = Resolved es ∧
        Z.of_nat (length es) = Z.min limit (Z.of_nat (size (records s))) ∧
        (records s = ∅ → es = []).
Proof.
  intros Hop Hpos. rewrite (getRecentEntries_opened _ _ _ _ Hop). simpl.
  eexists; split; [done|]. split.
  - rewrite length_take, length_openCursor_prev. lia.
  - intros Hempty. apply length_zero_iff_nil.
    rewrite length_take, length_openCursor_prev, Hempty, map_size_empty. lia.
Qed.

Lemma listRecent_length_witness :
  ∃ es, (LoggerDB.getRecentEntries (Some 5%Z) Healthy in_use connected).1
        = Resolved es ∧
        Z.of_nat (length es) = Z.min 5 (Z.of_nat (size (records two_entries))) ∧
        (records two_entries = ∅ → es = []).
Proof.
  apply (listRecent_length in_use connected two_entries 5).
  - split; [reflexivity | repeat split].
  - lia.
Defined.

(** C7, as the claim has it, fails: with two entries stored, a limit of 0
    or below yields no entry, a missing limit yields both. *)
Lemma listRecent_nonpositive_limit_counterexample :
  (LoggerDB.getRecentEntries (Some 0%Z) Healthy in_use connected).1 = Resolved [] ∧
  (LoggerDB.getRecentEntries (Some (-1)%Z) Healthy in_use connected).1 = Resolved [] ∧
  (LoggerDB.getRecentEntries None Healthy in_use connected).1
  = Resolved [ {| id := 2; fields := tuesday |}; {| id := 1; fields := monday |} ] ∧
  (LoggerDB.getRecentEntries (Some 0%Z) Healthy in_use connected).1
  ≠ (LoggerDB.getRecentEntries None Healthy in_use connected).1.
Proof. repeat split; vm_compute; done. Qed.

(** C7, amended.  A missing limit is the default of 10; a limit of 0 or
    below is kept as it is, and the query then returns the empty sequence:
    in neither case does it return all entries of a larger store. *)
Theorem listRecent_limit w l s :
  opened w l s →
  (LoggerDB.getRecentEntries None Healthy w l).1
  = (LoggerDB.getRecentEntries (Some 10%Z) Healthy w l).1 ∧
  (∀ limit, (limit ≤ 0)%Z →
     (LoggerDB.getRecentEntries (Some limit) Healthy w l).1 = Resolved []) ∧
  (∀ es, (LoggerDB.getRecentEntries None Healthy w l).1 = Resolved es →
     length es ≤ 10).
Proof.
  intros Hop. rewrite !(getRecentEntries_opened _ _ _ _ Hop). simpl.
  split; [done|]. split.
  - intros limit Hle. rewrite (getRecentEntries_opened _ _ _ _ Hop). simpl.
    replace (Z.to_nat limit) with 0 by lia. done.
  - intros es [= <-]. rewrite length_take. lia.
Qed.

Lemma listRecent_limit_witness :
  (LoggerDB.getRecentEntries None Healthy in_use connected).1
  = (LoggerDB.getRecentEntries (Some 10%Z) Healthy in_use connected).1 ∧
  (∀ limit, (limit ≤ 0)%Z →
     (LoggerDB.getRecentEntries (Some limit) Healthy in_use connected).1
     = Resolved []) ∧
  (∀ es, (LoggerDB.getRecentEntries None Healthy in_use connected).1 = Resolved es →
     length es ≤ 10).
Proof.
  apply (listRecent_limit in_use connected two_entries).
  split; [reflexivity | repeat split].
Defined.

(** ** Validation in the component *)

Section Validation.

Lemma trimStart_nil s : trimStart s = [] ↔ forallb is_whitespace s = true.
Proof.
  induction s as [|c s IH]; simpl; [done|].
  destruct (is_whitespace c); simpl; [done|]. split; discriminate.
Qed.

Lemma trimStart_head s c s' : trimStart s = c :: s' → is_whitespace c = false.
Proof.
  induction s as [|x s IH]; simpl; [done|].
  destruct (is_whitespace x) eqn:E; [done|]. by intros [= <- _].
Qed.

Lemma forallb_rev {A} (f : A → bool) (l : list A) :
  forallb f (rev l) = forallb f l.
Proof.
  induction l as [|a l IH]; simpl; [done|].
  rewrite forallb_app, IH. simpl. destruct (forallb f l), (f a); done.
Qed.

(** Trimming leaves nothing exactly when the text is empty or made of
    white space only. *)
Lemma trim_nil s : trim s = [] ↔ forallb is_whitespace s = true.
Proof.
  unfold trim, trimEnd. split.
  - intros H. apply (f_equal (@rev N)) in H. rewrite rev_involutive in H.
    simpl in H. apply trimStart_nil in H. rewrite forallb_rev in H.
    destruct (trimStart s) as [|c s'] eqn:E; [by apply trimStart_nil|].
    apply trimStart_head in E. simpl in H. by rewrite E in H.
  - intros H. apply trimStart_nil in H. by rewrite H.
Qed.

End Validation.

(** C3.  When the text is empty or white space only, the component's
    [saveEntry] rejects it (the validation failure, shown as the toast
    'Please enter some text'): the world is left as it was, so no call to
    the storage engine is made and no record is stored, and nothing of the
    component changes but the toast. *)
Theorem append_blank_rejected now write read w c :
  forallb is_whitespace (Logger.entryText c) = true →
  let '(w', c') := Logger.saveEntry now write read w c in
  calls w' = calls w ∧ databases w' = databases w ∧
  c' = Logger.showToastMessage (js "Please enter some text") c.
Proof.
  intros H%trim_nil. unfold Logger.saveEntry. rewrite H. simpl. done.
Qed.

Lemma append_blank_rejected_witness :
  let c := Logger.set_entryText (js "   ") (Logger.quickEntry (js "note") Logger.new) in
  let '(w', c') :=
    Logger.saveEntry (js "2025-06-04T09:00:00.000Z") Healthy Healthy in_use c in
  calls w' = calls in_use ∧ databases w' = databases in_use ∧
  c' = Logger.showToastMessage (js "Please enter some text") c.
Proof.
  apply (append_blank_rejected (js "2025-06-04T09:00:00.000Z") Healthy Healthy in_use
           (Logger.set_entryText (js "   ") (Logger.quickEntry (js "note") Logger.new))).
  reflexivity.
Defined.

(** C5.  On an origin without a database: initialise, choose 'issue', type
    '  Spill in aisle 3  ' and save.  The store then holds one record, with
    id 1, the trimmed content and [synced] false, and [getRecentEntries(10)]
    returns exactly that entry, which is also what the component shows. *)
Theorem first_append_scenario now :
  let spill :=
    {| id := 1;
       fields := {| type := js "issue"; content := js "Spill in aisle 3";
                    timestamp := now; synced := false |} |} in
  let '(w1, c1) := Logger.init Healthy Healthy fresh Logger.new in
  let c2 := Logger.set_entryText (js "  Spill in aisle 3  ")
              (Logger.quickEntry (js "issue") c1) in
  let '(w3, c3) := Logger.saveEntry now Healthy Healthy w1 c2 in
  (stored <$> entries_store w3 (Logger.db c3)) = Some [spill] ∧
  (LoggerDB.getRecentEntries (Some 10%Z) Healthy w3 (Logger.db c3)).1
  = Resolved [spill] ∧
  Logger.recentEntries c3 = [spill].
Proof. vm_compute. done. Qed.

(** ** Opening the database *)

Section Initialize.

Lemma named_app_new {A} n (a : A) (l : list (string * A)) :
  n ∉ l.*1 → named n (l ++ [(n, a)]) = Some a.
Proof.
  induction l as [|[m b] l IH]; simpl; intros Hn.
  - by rewrite decide_True.
  - apply not_elem_of_cons in Hn as [Hne Hn]. rewrite decide_False by done. auto.
Qed.

Lemma set_named_app_new {A} n (a a' : A) (l : list (string * A)) :
  n ∉ l.*1 → set_named n a' (l ++ [(n, a)]) = l ++ [(n, a')].
Proof.
  induction l as [|[m b] l IH]; simpl; intros Hn.
  - by rewrite decide_True.
  - apply not_elem_of_cons in Hn as [Hne Hn]. rewrite decide_False by done.
    by rewrite IH.
Qed.

Lemma named_app_old {A} n m (a : A) (l : list (string * A)) b :
  named n l = Some b → named n (l ++ [(m, a)]) = Some b.
Proof.
  induction l as [|[k c] l IH]; simpl; [done|].
  destruct (decide (k = n)); auto.
Qed.

Lemma set_named_same {A} n (a : A) (l : list (string * A)) :
  named n l = Some a → set_named n a l = l.
Proof.
  induction l as [|[m b] l IH]; simpl; [done|].
  destruct (decide (m = n)); [by intros [= ->]|]. intros ?. f_equal. auto.
Qed.

Lemma named_set_named {A} n (a b : A) (l : list (string * A)) :
  named n l = Some b → named n (set_named n a l) = Some a.
Proof.
  induction l as [|[m c] l IH]; simpl; [done|].
  destruct (decide (m = n)) as [->|] eqn:E; simpl; rewrite E; auto.
Qed.

Lemma set_named_names {A} n (a : A) (l : list (string * A)) :
  (set_named n a l).*1 = l.*1.
Proof.
  induction l as [|[m c] l IH]; simpl; [done|].
  destruct (decide (m = n)); simpl; by f_equal.
Qed.

(** The upgrade handler never throws: it leaves a database that has a
    store ['entries'] alone and adds the store, with its two indexes, to
    one that has none. *)
Lemma onupgradeneeded_spec d :
  LoggerDB.onupgradeneeded d =
  Return (if contains "entries" (objectStoreNames d) then d
          else {| db_version := db_version d;
                  objectStores := objectStores d ++ [("entries", empty_entries)] |}).
Proof.
  unfold LoggerDB.onupgradeneeded, createObjectStore.
  destruct (contains "entries" (objectStoreNames d)) eqn:E; simpl; [done|].
  apply bool_decide_eq_false in E.
  unfold createIndex. simpl.
  rewrite (named_app_new _ _ _ E). simpl.
  rewrite (set_named_app_new _ _ _ _ E). simpl.
  rewrite (named_app_new _ _ _ E). simpl.
  by rewrite (set_named_app_new _ _ _ _ E).
Qed.

Lemma contains_true n names : contains n names = true ↔ n ∈ names.
Proof. apply bool_decide_eq_true. Qed.

Lemma database_insert n d dbs cs :
  database n {| databases := <[n := d]> dbs; calls := cs |} = d.
Proof. unfold database. simpl. by rewrite lookup_insert_eq. Qed.

(** What a call of [init] that succeeds has done. *)
Lemma init_resolved disk w l conn w1 l1 :
  LoggerDB.init disk w l = (Resolved conn, w1, l1) →
  conn = LoggerDB.dbName l ∧
  l1 = {| LoggerDB.dbName := LoggerDB.dbName l;
          LoggerDB.version := LoggerDB.version l;
          LoggerDB.db := Some conn |} ∧
  calls w1 = calls w ++ [CallInit] ∧
  (0 < LoggerDB.version l)%Z ∧
  db_version (database conn w1) = LoggerDB.version l ∧
  (objectStores (database conn w1) = objectStores (database conn w) ∨
   (("entries" ∉ objectStoreNames (database conn w)) ∧
    objectStores (database conn w1) =
      objectStores (database conn w) ++ [("entries", empty_entries)])).
Proof.
  unfold LoggerDB.init, idb_open. simpl.
  destruct (Z.leb_spec (LoggerDB.version l) 0); [done|].
  destruct disk; [|done].
  fold (database (LoggerDB.dbName l) w).
  set (d := database (LoggerDB.dbName l) w).
  destruct (Z.ltb_spec (LoggerDB.version l) (db_version d)); [done|].
  destruct (Z.ltb_spec (db_version d) (LoggerDB.version l)).
  - rewrite onupgradeneeded_spec. simpl. intros [= <- <- <-].
    rewrite database_insert.
    repeat split; try done.
    + by destruct (contains _ _).
    + destruct (contains _ _) eqn:E; [by left|right].
      split; [|done]. by apply bool_decide_eq_false in E.
  - intros [= <- <- <-].
    change (database (LoggerDB.dbName l) _) with d.
    repeat split; try done; [lia|by left].
Qed.

(** Opening a database that already has the requested version changes
    nothing. *)
Lemma init_same_version disk w l :
  (0 < LoggerDB.version l)%Z →
  db_version (database (LoggerDB.dbName l) w) = LoggerDB.version l →
  LoggerDB.init disk w l =
  match disk with
  | Healthy =>
      (Resolved (LoggerDB.dbName l), called CallInit w,
       {| LoggerDB.dbName := LoggerDB.dbName l;
          LoggerDB.version := LoggerDB.version l;
          LoggerDB.db := Some (LoggerDB.dbName l) |})
  | Faulty => (Rejected UnknownError, called CallInit w, l)
  end.
Proof.
  intros Hpos Hver. unfold LoggerDB.init, idb_open. simpl.
  destruct (Z.leb_spec (LoggerDB.version l) 0); [lia|].
  destruct disk; [|done].
  fold (database (LoggerDB.dbName l) w). rewrite Hver, Z.ltb_irrefl. done.
Qed.

End Initialize.

(** C6.  After a call of [init] that succeeded, a second call in sequence
    leaves every database as the first call left it: it creates no object
    store and no index and touches no record; it yields the same connection
    when the disk lets it.  Across both calls a store ['entries'] that
    existed keeps its records, and the object stores keep distinct
    names. *)
Theorem initialize_idempotent disk1 disk2 w l conn w1 l1 :
  LoggerDB.init disk1 w l = (Resolved conn, w1, l1) →
  let '(r2, w2, l2) := LoggerDB.init disk2 w1 l1 in
  databases w2 = databases w1 ∧ l2 = l1 ∧
  (disk2 = Healthy → r2 = Resolved conn) ∧
  (∀ s, named "entries" (objectStores (database conn w)) = Some s →
        named "entries" (objectStores (database conn w2)) = Some s) ∧
  (NoDup (objectStoreNames (database conn w)) →
   NoDup (objectStoreNames (database conn w2))).
Proof.
  intros H. apply init_resolved in H as (-> & -> & _ & Hpos & Hver & Hstores).
  rewrite init_same_version by done. simpl.
  assert (∀ w', database (LoggerDB.dbName l) (called CallInit w')
                = database (LoggerDB.dbName l) w') as Hcalled by done.
  destruct disk2; simpl; rewrite ?Hcalled; (split; [done|]); (split; [done|]);
    (split; [done|]).
  all: split.
  all: try (intros s Hs; destruct Hstores as [->|[_ ->]];
            [done|by apply named_app_old]).
  all: intros Hnd; unfold objectStoreNames in *;
    destruct Hstores as [->|[Hnotin ->]]; [done|];
    rewrite fmap_app; apply NoDup_app; split; [done|]; split;
      [|apply NoDup_singleton];
    intros x Hx ->%list_elem_of_singleton; done.
Qed.

Lemma initialize_idempotent_witness :
  let '(r2, w2, l2) :=
    LoggerDB.init Healthy (called CallInit in_use) connected in
  databases w2 = databases (called CallInit in_use) ∧ l2 = connected ∧
  (Healthy = Healthy → r2 = Resolved "PersonalLogger") ∧
  (∀ s, named "entries" (objectStores (database "PersonalLogger" in_use)) = Some s →
        named "entries" (objectStores (database "PersonalLogger" w2)) = Some s) ∧
  (NoDup (objectStoreNames (database "PersonalLogger" in_use)) →
   NoDup (objectStoreNames (database "PersonalLogger" w2))).
Proof.
  apply (initialize_idempotent Healthy Healthy in_use LoggerDB.new
           "PersonalLogger" (called CallInit in_use) connected).
  reflexivity.
Defined.

(** ** Writing a record *)

Section Append.

Implicit Types (s : ObjectStore) (o entry : EntryObject) (w : World).

(** The three ways [add] can end. *)
Lemma add_cases disk o s :
  add disk o s = Throw DataError ∨
  (∃ e, add disk o s = Return (Failed e, s)) ∨
  (∃ k gen,
     add disk o s =
       Return (Succeeded k,
               {| keyPath := keyPath s; autoIncrement := autoIncrement s;
                  indexes := indexes s;
                  records := <[k := obj_fields o]> (records s);
                  keyGenerator := gen |}) ∧
     disk = Healthy ∧
     records s !! k = None ∧
     (keyGenerator s ≤ gen)%Z ∧
     (obj_id o = None → k = keyGenerator s ∧ gen = (k + 1)%Z) ∧
     (∀ k0, obj_id o = Some k0 → k = k0)).
Proof.
  unfold add.
  destruct (obj_id o) as [k0|] eqn:Hid; destruct (autoIncrement s) eqn:Hauto;
    [| | |by left]; right; (destruct disk; [|left; eauto]).
  3: { unfold generate_key.
       destruct (Z.ltb_spec max_generated (keyGenerator s)); [left; eauto|].
       destruct (decide (is_Some (records s !! keyGenerator s))) as [|Hnone];
         [left; eauto|]; apply eq_None_not_Some in Hnone.
       destruct (breaks_unique _ s); [left; eauto|].
       right; eexists _, _; split; [reflexivity|].
       repeat split; try done; lia. }
  all: destruct (decide (is_Some (records s !! k0))) as [|Hnone];
    [left; eauto|]; apply eq_None_not_Some in Hnone.
  all: destruct (breaks_unique _ s); [left; eauto|].
  all: right; eexists _, _; split; [reflexivity|].
  all: repeat split; try done; try lia; try (by intros ? [= <-]).
  unfold update_generator.
  destruct (Z.leb_spec (keyGenerator s) (k0 `min` max_generated)); lia.
Qed.

(** On the schema of [init] a healthy disk stores any object without an
    id, as long as the key generator has a number left that no record
    uses. *)
Lemma add_generated s f :
  entries_schema s →
  (keyGenerator s ≤ max_generated)%Z →
  records s !! keyGenerator s = None →
  add Healthy {| obj_id := None; obj_fields := f |} s =
  Return (Succeeded (keyGenerator s),
          {| keyPath := keyPath s; autoIncrement := autoIncrement s;
             indexes := indexes s;
             records := <[keyGenerator s := f]> (records s);
             keyGenerator := (keyGenerator s + 1)%Z |}).
Proof.
  intros (_ & Hauto & Hix) Hgen Hfree. unfold add, generate_key. simpl.
  rewrite Hauto.
  destruct (Z.ltb_spec max_generated (keyGenerator s)); [lia|].
  rewrite decide_False by (rewrite Hfree; by intros [??]).
  unfold breaks_unique. rewrite Hix. simpl. done.
Qed.

Lemma entries_store_Some w l s :
  entries_store w l = Some s ↔
  ∃ conn, LoggerDB.db l = Some conn ∧
          named "entries" (objectStores (database conn w)) = Some s.
Proof.
  unfold entries_store. destruct (LoggerDB.db l) as [conn|]; split.
  - intros H. by exists conn.
  - by intros (conn' & [= <-] & H).
  - done.
  - by intros (conn' & ? & _).
Qed.

Lemma saveEntry_no_store disk entry w l :
  entries_store w l = None →
  ∃ e, LoggerDB.saveEntry disk entry w l
       = (Rejected e, called (CallSaveEntry entry) w).
Proof.
  unfold entries_store, LoggerDB.saveEntry.
  destruct (LoggerDB.db l) as [conn|]; [|eauto].
  change (database conn (called (CallSaveEntry entry) w)) with (database conn w).
  intros ->. destruct (transaction _ _); eauto.
Qed.

Lemma saveEntry_store disk entry w l conn s :
  LoggerDB.db l = Some conn →
  named "entries" (objectStores (database conn w)) = Some s →
  LoggerDB.saveEntry disk entry w l =
  match add disk entry s with
  | Throw e => (Rejected e, called (CallSaveEntry entry) w)
  | Return (r, s') =>
      (Resolved r, put_store conn "entries" s' (called (CallSaveEntry entry) w))
  end.
Proof.
  intros Hdb Hs. unfold LoggerDB.saveEntry. rewrite Hdb.
  change (database conn (called (CallSaveEntry entry) w)) with (database conn w).
  by rewrite (transaction_entries _ _ Hs), Hs.
Qed.

Lemma put_store_same conn s w :
  named "entries" (objectStores (database conn w)) = Some s →
  databases (put_store conn "entries" s w) = databases w.
Proof.
  intros Hs. unfold put_store. simpl.
  rewrite (set_named_same _ _ _ Hs).
  unfold database in *. destruct (databases w !! conn) as [d|] eqn:E; [|done].
  simpl. apply insert_id. rewrite E. by destruct d.
Qed.

Lemma entries_store_put_store conn s s' w l :
  LoggerDB.db l = Some conn →
  named "entries" (objectStores (database conn w)) = Some s →
  entries_store (put_store conn "entries" s' w) l = Some s'.
Proof.
  intros Hdb Hs. unfold entries_store, put_store. rewrite Hdb.
  rewrite database_insert. simpl. by eapply named_set_named.
Qed.

Lemma entries_store_called c w l :
  entries_store (called c w) l = entries_store w l.
Proof. done. Qed.

(** A call that does not get its record stored leaves the databases as
    they were. *)
Lemma saveEntry_not_committed disk entry w l :
  committed (LoggerDB.saveEntry disk entry w l).1 = false →
  databases (LoggerDB.saveEntry disk entry w l).2 = databases w.
Proof.
  destruct (entries_store w l) as [s|] eqn:Hs.
  - apply entries_store_Some in Hs as (conn & Hdb & Hs).
    rewrite (saveEntry_store _ _ _ _ _ _ Hdb Hs).
    destruct (add_cases disk entry s) as [->|[[e ->]|(k & gen & -> & _)]];
      simpl; [done| |done].
    intros _. by apply (put_store_same conn s (called (CallSaveEntry entry) w)).
  - destruct (saveEntry_no_store disk entry w l Hs) as [e ->]. done.
Qed.

(** A call that gets its record stored adds exactly that record, under a
    key no record had. *)
Lemma saveEntry_committed disk entry w l k :
  assigned (LoggerDB.saveEntry disk entry w l).1 = Some k →
  ∃ s s',
    entries_store w l = Some s ∧
    entries_store (LoggerDB.saveEntry disk entry w l).2 l = Some s' ∧
    disk = Healthy ∧
    records s !! k = None ∧
    records s' = <[k := obj_fields entry]> (records s) ∧
    keyPath s' = keyPath s ∧ autoIncrement s' = autoIncrement s ∧
    indexes s' = indexes s ∧
    (keyGenerator s ≤ keyGenerator s')%Z ∧
    (obj_id entry = None →
       k = keyGenerator s ∧ keyGenerator s' = (k + 1)%Z) ∧
    (∀ k0, obj_id entry = Some k0 → k = k0).
Proof.
  destruct (entries_store w l) as [s|] eqn:Hs.
  - apply entries_store_Some in Hs as (conn & Hdb & Hs).
    rewrite (saveEntry_store _ _ _ _ _ _ Hdb Hs).
    destruct (add_cases disk entry s)
      as [->|[[e ->]|(k' & gen & -> & ? & ? & ? & ? & ?)]]; simpl; [done..|].
    intros [= ->]. eexists s, _. split; [done|]. split.
    { by apply (entries_store_put_store conn s _ (called (CallSaveEntry entry) w)). }
    done.
  - destruct (saveEntry_no_store disk entry w l Hs) as [e ->]. done.
Qed.

Lemma saveEntry_calls disk entry w l :
  calls (LoggerDB.saveEntry disk entry w l).2 = calls w ++ [CallSaveEntry entry].
Proof.
  destruct (entries_store w l) as [s|] eqn:Hs.
  - apply entries_store_Some in Hs as (conn & Hdb & Hs).
    rewrite (saveEntry_store _ _ _ _ _ _ Hdb Hs).
    by destruct (add disk entry s) as [[??]|].
  - by destruct (saveEntry_no_store disk entry w l Hs) as [e ->].
Qed.

(** Reading looks at the databases only, and leaves them alone. *)
Lemma getRecentEntries_databases limit disk w1 w2 l :
  databases w1 = databases w2 →
  (LoggerDB.getRecentEntries limit disk w1 l).1
  = (LoggerDB.getRecentEntries limit disk w2 l).1.
Proof.
  intros H. unfold LoggerDB.getRecentEntries.
  destruct (LoggerDB.db l) as [conn|]; [|done].
  assert (database conn (called (CallGetRecentEntries limit) w1)
          = database conn (called (CallGetRecentEntries limit) w2)) as ->.
  { unfold database. simpl. by rewrite H. }
  destruct (transaction _ _); [|done].
  destruct (named "entries" _); [|done].
  destruct (named "timestamp" _); [|done].
  by destruct disk.
Qed.

Lemma getRecentEntries_world limit disk w l :
  (LoggerDB.getRecentEntries limit disk w l).2
  = called (CallGetRecentEntries limit) w.
Proof.
  unfold LoggerDB.getRecentEntries.
  destruct (LoggerDB.db l) as [conn|]; [|done].
  destruct (transaction _ _); [|done].
  destruct (named "entries" _); [|done].
  destruct (named "timestamp" _); [|done].
  by destruct disk.
Qed.

End Append.

(** ** The component's save path *)

Section Component.

Implicit Types (w : World) (c : Logger.t).

Lemma entries_store_databases w1 w2 l :
  databases w1 = databases w2 → entries_store w1 l = entries_store w2 l.
Proof.
  intros H. unfold entries_store, database. by rewrite H.
Qed.

Lemma loadRecentEntries_spec disk w c :
  Logger.loadRecentEntries disk w c =
  (called (CallGetRecentEntries (Some 10%Z)) w,
   match (LoggerDB.getRecentEntries (Some 10%Z) disk w (Logger.db c)).1 with
   | Resolved es => Logger.set_recentEntries es c
   | Rejected _ => c
   end).
Proof.
  unfold Logger.loadRecentEntries.
  pose proof (getRecentEntries_world (Some 10%Z) disk w (Logger.db c)) as Hw.
  destruct (LoggerDB.getRecentEntries _ _ _ _) as [[es|e] w']; simpl in *;
    by subst.
Qed.

(** The component's [saveEntry], step by step. *)
Lemma saveEntry_spec now write read w c :
  Logger.saveEntry now write read w c =
  if falsy (trim (Logger.entryText c)) then
    (w, Logger.showToastMessage (js "Please enter some text") c)
  else
    let saved := LoggerDB.saveEntry write (entry_of now c) w (Logger.db c) in
    match saved.1 with
    | Resolved _ =>
        (called (CallGetRecentEntries (Some 10%Z)) saved.2,
         Logger.set_isLoading false
           (Logger.showToastMessage (js "Entry saved successfully")
              (Logger.closeModal
                 match (LoggerDB.getRecentEntries (Some 10%Z) read saved.2
                          (Logger.db c)).1 with
                 | Resolved es =>
                     Logger.set_recentEntries es (Logger.set_isLoading true c)
                 | Rejected _ => Logger.set_isLoading true c
                 end)))
    | Rejected _ =>
        (saved.2,
         Logger.set_isLoading false
           (Logger.showToastMessage (js "Failed to save entry")
              (Logger.set_isLoading true c)))
    end.
Proof.
  unfold Logger.saveEntry. destruct (falsy _); [done|].
  change (LoggerDB.saveEntry write _ w (Logger.db (Logger.set_isLoading true c)))
    with (LoggerDB.saveEntry write (entry_of now c) w (Logger.db c)).
  destruct (LoggerDB.saveEntry write (entry_of now c) w (Logger.db c))
    as [[r|e] w']; simpl; [|done].
  by rewrite loadRecentEntries_spec.
Qed.

(** The storage calls the component's [saveEntry] makes. *)
Lemma component_calls now write read w c :
  calls (Logger.saveEntry now write read w c).1 =
  if falsy (trim (Logger.entryText c)) then calls w
  else calls w ++ [CallSaveEntry (entry_of now c)] ++
       match (LoggerDB.saveEntry write (entry_of now c) w (Logger.db c)).1 with
       | Resolved _ => [CallGetRecentEntries (Some 10%Z)]
       | Rejected _ => []
       end.
Proof.
  rewrite saveEntry_spec.
  destruct (falsy _); [done|]. simpl.
  pose proof (saveEntry_calls write (entry_of now c) w (Logger.db c)) as Hcalls.
  destruct (LoggerDB.saveEntry write (entry_of now c) w (Logger.db c))
    as [[r|e] w1]; simpl in *; rewrite Hcalls.
  + by rewrite <-app_assoc.
  + done.
Qed.

End Component.

(** What an append whose record does not get stored leaves behind (the
    storage call throws, or the add request fails and its transaction
    aborts).  The databases are exactly as before, so every later
    [getRecentEntries] returns what it would have returned before.  The
    component's list is left as it was when the storage call was rejected,
    the only failure the component sees (toast 'Failed to save entry');
    when the request fails after the call returned, the component goes on
    as after a success and reloads the list from the unchanged store. *)
Lemma append_not_stored now write read w c :
  committed (LoggerDB.saveEntry write (entry_of now c) w (Logger.db c)).1 = false →
  let '(w', c') := Logger.saveEntry now write read w c in
  databases w' = databases w ∧
  Logger.db c' = Logger.db c ∧
  (∀ limit disk,
     (LoggerDB.getRecentEntries limit disk w' (Logger.db c')).1
     = (LoggerDB.getRecentEntries limit disk w (Logger.db c)).1) ∧
  (Logger.recentEntries c' = Logger.recentEntries c ∨
   Resolved (Logger.recentEntries c')
   = (LoggerDB.getRecentEntries (Some 10%Z) Healthy w (Logger.db c)).1) ∧
  (Resolved (Logger.recentEntries c)
   = (LoggerDB.getRecentEntries (Some 10%Z) Healthy w (Logger.db c)).1 →
   Logger.recentEntries c' = Logger.recentEntries c) ∧
  (∀ e, falsy (trim (Logger.entryText c)) = false →
        (LoggerDB.saveEntry write (entry_of now c) w (Logger.db c)).1 = Rejected e →
        Logger.recentEntries c' = Logger.recentEntries c ∧
        Logger.toastMessage c' = js "Failed to save entry").
Proof.
  intros Hfail. rewrite saveEntry_spec.
  destruct (falsy (trim (Logger.entryText c))) eqn:Hblank.
  { repeat split; auto; discriminate. }
  pose proof (saveEntry_not_committed _ _ _ _ Hfail) as Hdbs.
  destruct (LoggerDB.saveEntry write (entry_of now c) w (Logger.db c))
    as [r w1] eqn:Hsave. simpl in *.
  destruct r as [req|e].
  - assert (∀ limit disk,
      (LoggerDB.getRecentEntries limit disk
         (called (CallGetRecentEntries (Some 10%Z)) w1) (Logger.db c)).1
      = (LoggerDB.getRecentEntries limit disk w (Logger.db c)).1) as Hread.
    { intros. by apply getRecentEntries_databases. }
    assert (∀ disk,
      (LoggerDB.getRecentEntries (Some 10%Z) disk w1 (Logger.db c)).1
      = (LoggerDB.getRecentEntries (Some 10%Z) disk w (Logger.db c)).1) as Hload.
    { intros. by apply getRecentEntries_databases. }
    rewrite Hload.
    destruct (LoggerDB.getRecentEntries (Some 10%Z) read w (Logger.db c)).1
      as [es|e'] eqn:Hres; simpl.
    + assert (read = Healthy) as ->.
      { destruct read; [done|]. revert Hres. unfold LoggerDB.getRecentEntries.
        destruct (LoggerDB.db (Logger.db c)); [|done].
        destruct (transaction _ _); [|done].
        destruct (named "entries" _); [|done].
        by destruct (named "timestamp" _). }
      split; [done|]. split; [done|]. split; [done|]. split; [|split].
      * right. by rewrite Hres.
      * rewrite Hres. by intros [= ->].
      * discriminate.
    + repeat split; auto; discriminate.
  - repeat split; auto.
    intros. by apply getRecentEntries_databases.
Qed.

(** C9, at a failing input.  The connection is open on a store with two
    entries, the list of the component is still empty because the load at
    start-up failed, and the disk refuses the write.  [LoggerDB.saveEntry]
    resolves all the same, with the request that is going to fail; the
    store stays as it was, but the component takes the append for a success:
    it reloads its list, closes the modal (dropping the text) and shows
    'Entry saved successfully'. *)
Lemma failed_add_reported_as_saved :
  let now := js "2025-06-04T09:00:00.000Z" in
  let '(w0, c0) := Logger.init Healthy Faulty in_use Logger.new in
  let c1 := Logger.set_entryText (js "Spill in aisle 3")
              (Logger.quickEntry (js "issue") c0) in
  let '(w', c') := Logger.saveEntry now Faulty Healthy w0 c1 in
  (LoggerDB.saveEntry Faulty (entry_of now c1) w0 (Logger.db c1)).1
  = Resolved (Failed QuotaExceededError) ∧
  databases w' = databases in_use ∧
  Logger.recentEntries c1 = [] ∧
  Logger.recentEntries c'
  = [ {| id := 2; fields := tuesday |}; {| id := 1; fields := monday |} ] ∧
  Logger.toastMessage c' = js "Entry saved successfully" ∧
  Logger.showModal c' = false ∧
  Logger.entryText c' = [].
Proof. vm_compute. done. Qed.

(** ** What the storage layer stores *)

(** C10.  [LoggerDB.saveEntry] hands the object to the store as it is.  On
    an opened store whose key generator has a free number left, a healthy
    disk stores _every_ object without an id, whatever its fields (empty or
    untrimmed content, any type string, any timestamp, [synced] true), under
    the generated key and with its four fields unchanged; and whenever a
    call stores a record at all, the record holds the fields of the object
    it was given.  Trimming, stamping, [synced := false] and the rejection
    of blank text happen in the component: blank text makes no storage
    call, any other text makes one call, with the object [entry_of]. *)
Theorem saveEntry_stores_verbatim w l s :
  opened w l s →
  (keyGenerator s ≤ max_generated)%Z →
  records s !! keyGenerator s = None →
  (∀ f : Fields,
     let saved := LoggerDB.saveEntry Healthy {| obj_id := None; obj_fields := f |} w l in
     saved.1 = Resolved (Succeeded (keyGenerator s)) ∧
     ∃ s', entries_store saved.2 l = Some s' ∧
           records s' = <[keyGenerator s := f]> (records s)) ∧
  (∀ disk entry k,
     let saved := LoggerDB.saveEntry disk entry w l in
     assigned saved.1 = Some k →
     ∃ s', entries_store saved.2 l = Some s' ∧
           records s' = <[k := obj_fields entry]> (records s)) ∧
  (∀ now write read c,
     calls (Logger.saveEntry now write read w c).1 =
     if falsy (trim (Logger.entryText c)) then calls w
     else calls w ++ [CallSaveEntry (entry_of now c)] ++
          match (LoggerDB.saveEntry write (entry_of now c) w (Logger.db c)).1 with
          | Resolved _ => [CallGetRecentEntries (Some 10%Z)]
          | Rejected _ => []
          end).
Proof.
  intros [Hs Hschema] Hgen Hfree. split; [|split].
  - intros f saved. subst saved.
    pose proof Hs as (conn & Hdb & Hnamed)%entries_store_Some.
    rewrite (saveEntry_store _ _ _ _ _ _ Hdb Hnamed).
    rewrite (add_generated _ _ Hschema Hgen Hfree). simpl. split; [done|].
    eexists. split; [by apply (entries_store_put_store conn s _ (called _ w))|].
    done.
  - intros disk entry k saved Hk. subst saved.
    apply saveEntry_committed in Hk
      as (s0 & s' & Hs0 & Hs' & _ & _ & Hrec & _).
    rewrite Hs in Hs0. injection Hs0 as <-. eauto.
  - intros now write read c. apply component_calls.
Qed.

Lemma saveEntry_stores_verbatim_witness :
  let raw := {| type := js "anything"; content := js "  ";
                timestamp := js "yesterday"; synced := true |} in
  let saved :=
    LoggerDB.saveEntry Healthy {| obj_id := None; obj_fields := raw |}
      in_use connected in
  saved.1 = Resolved (Succeeded 3%Z) ∧
  ∃ s', entries_store saved.2 connected = Some s' ∧
        records s' = <[3%Z := raw]> (records two_entries).
Proof.
  refine (proj1 (saveEntry_stores_verbatim in_use connected two_entries _ _ _) _).
  - split; [reflexivity | repeat split].
  - vm_compute. discriminate.
  - reflexivity.
Defined.

(** ** Identifiers *)

Section Identifiers.

Implicit Types (w : World) (l : LoggerDB.t) (script : list (Disk * EntryObject)).

(** One call either stores a record under a fresh id, moving the
    generator forward, or changes neither the ids nor the generator. *)
Lemma saveEntry_step disk entry w l :
  let saved := LoggerDB.saveEntry disk entry w l in
  match assigned saved.1 with
  | Some k =>
      (k ∉ ids_of w l) ∧ ids_of saved.2 l = {[k]} ∪ ids_of w l ∧
      (generator_of w l ≤ generator_of saved.2 l)%Z ∧
      (obj_id entry = None →
         k = generator_of w l ∧ generator_of saved.2 l = (k + 1)%Z)
  | None =>
      ids_of saved.2 l = ids_of w l ∧
      generator_of saved.2 l = generator_of w l
  end.
Proof.
  intros saved. subst saved.
  destruct (assigned (LoggerDB.saveEntry disk entry w l).1) as [k|] eqn:Hk.
  - apply saveEntry_committed in Hk
      as (s & s' & Hs & Hs' & _ & Hfree & Hrec & _ & _ & _ & Hmono & Hgen & _).
    unfold ids_of, generator_of. rewrite Hs, Hs', Hrec.
    split; [by apply not_elem_of_dom|]. split; [by rewrite dom_insert_L|].
    done.
  - assert (committed (LoggerDB.saveEntry disk entry w l).1 = false) as Hc
      by (unfold committed; by rewrite Hk).
    apply saveEntry_not_committed in Hc.
    unfold ids_of, generator_of.
    by rewrite (entries_store_databases _ _ l Hc).
Qed.

Lemma saveAll_cons disk entry script w l :
  saveAll ((disk, entry) :: script) w l =
  let saved := LoggerDB.saveEntry disk entry w l in
  (saved.1 :: (saveAll script saved.2 l).1, (saveAll script saved.2 l).2).
Proof.
  simpl. destruct (LoggerDB.saveEntry disk entry w l) as [r w']. simpl.
  by destruct (saveAll script w' l).
Qed.

(** The ids assigned in a run are fresh and pairwise distinct. *)
Lemma saveAll_fresh script w l :
  let ids := omap assigned (saveAll script w l).1 in
  NoDup ids ∧ ∀ k, k ∈ ids → k ∉ ids_of w l.
Proof.
  revert w. induction script as [|[disk entry] script IH]; intros w.
  { simpl. split; [constructor|]. by intros k ?%elem_of_nil. }
  rewrite saveAll_cons. cbn [fst omap list_omap].
  pose proof (saveEntry_step disk entry w l) as Hstep. cbn zeta in Hstep.
  destruct (IH (LoggerDB.saveEntry disk entry w l).2) as [Hnd Hfresh].
  destruct (assigned (LoggerDB.saveEntry disk entry w l).1) as [k|].
  - destruct Hstep as (Hk & Hids & _). rewrite Hids in Hfresh. split.
    + constructor; [|done]. intros Hin. apply Hfresh in Hin.
      apply Hin, elem_of_union. left. by apply elem_of_singleton.
    + intros k' [->|Hin]%elem_of_cons; [done|].
      apply Hfresh in Hin. intros Hold. apply Hin, elem_of_union. by right.
  - destruct Hstep as [Hids _]. rewrite Hids in Hfresh. done.
Qed.

(** The generated ids go up, starting at the generator's number. *)
Lemma saveAll_increasing script w l :
  let ids := generated script (saveAll script w l).1 in
  StronglySorted Z.lt ids ∧ ∀ k, k ∈ ids → (generator_of w l ≤ k)%Z.
Proof.
  revert w. induction script as [|[disk entry] script IH]; intros w.
  { simpl. split; [constructor|]. by intros k ?%elem_of_nil. }
  rewrite saveAll_cons. cbn [fst generated].
  pose proof (saveEntry_step disk entry w l) as Hstep. cbn zeta in Hstep.
  destruct (IH (LoggerDB.saveEntry disk entry w l).2) as [Hsorted Hlow].
  destruct (assigned (LoggerDB.saveEntry disk entry w l).1) as [k|].
  - destruct Hstep as (_ & _ & Hmono & Hgen).
    destruct (obj_id entry).
    + split; [done|]. intros k' Hin. apply Hlow in Hin. lia.
    + destruct Hgen as [-> Hnext]; [done|]. split.
      * constructor; [done|]. apply Forall_forall. intros k' Hin.
        apply Hlow in Hin. lia.
      * intros k' [->|Hin]%elem_of_cons; [lia|]. apply Hlow in Hin. lia.
  - destruct Hstep as [_ Hgen]. rewrite Hgen in Hlow.
    by destruct (obj_id entry).
Qed.

End Identifiers.

(** C8.  In every sequence of [saveEntry] calls, from any state: the ids
    under which records get stored are pairwise distinct and none of them
    was in the store before; the ids the key generator hands out (those of
    objects that carry no id) are strictly increasing in the order of the
    calls; and the component never puts an id on the object it hands to the
    storage engine, so every id of its entries is generated. *)
Theorem ids_unique_increasing script w l :
  let rs := (saveAll script w l).1 in
  NoDup (omap assigned rs) ∧
  (∀ k s, k ∈ omap assigned rs → entries_store w l = Some s →
          records s !! k = None) ∧
  StronglySorted Z.lt (generated script rs) ∧
  (∀ now write read w0 c entry,
     CallSaveEntry entry ∈ calls (Logger.saveEntry now write read w0 c).1 →
     CallSaveEntry entry ∈ calls w0 ∨ obj_id entry = None).
Proof.
  cbn zeta. destruct (saveAll_fresh script w l) as [Hnd Hfresh].
  destruct (saveAll_increasing script w l) as [Hsorted _].
  split; [done|]. split; [|split; [done|]].
  - intros k s Hk Hs. apply Hfresh in Hk. unfold ids_of in Hk. rewrite Hs in Hk.
    by apply not_elem_of_dom.
  - intros now write read w0 c entry.
    rewrite component_calls.
    destruct (falsy _); [by left|].
    rewrite !elem_of_app, list_elem_of_singleton.
    intros [?|[[= ->]|Hin]]; [by left|by right|].
    destruct (LoggerDB.saveEntry _ _ _ _).1.
    + by apply list_elem_of_singleton in Hin.
    + by apply elem_of_nil in Hin.
Qed.

(** ** Append, then read *)

Section AppendThenRead.

Implicit Types (s : ObjectStore) (e : Entry).

Lemma openCursor_prev_Permutation s :
  openCursor prev timestamp_index s ≡ₚ stored s.
Proof.
  unfold openCursor.
  rewrite reverse_Permutation, timestamp_index_records, <-list_fmap_compose.
  by rewrite list_fmap_id.
Qed.

Lemma stored_insert s s' k f :
  records s' = <[k := f]> (records s) → records s !! k = None →
  stored s' ≡ₚ {| id := k; fields := f |} :: stored s.
Proof.
  intros Hrec Hfree. unfold stored.
  by rewrite Hrec, (map_to_list_insert _ _ _ Hfree).
Qed.

Lemma precedes_asym e1 e2 : precedes e1 e2 → precedes e2 e1 → False.
Proof.
  unfold precedes. intros [H1|[H1 H1']] [H2|[H2 H2']].
  - rewrite compare_strings_antisym, H1 in H2. done.
  - rewrite H2, compare_strings_refl in H1. done.
  - rewrite H1, compare_strings_refl in H2. done.
  - lia.
Qed.

(** A record that precedes all stored ones is where the cursor starts
    once it is stored. *)
Lemma openCursor_prev_insert s s' k f :
  records s' = <[k := f]> (records s) → records s !! k = None →
  (∀ e, e ∈ stored s → precedes {| id := k; fields := f |} e) →
  openCursor prev timestamp_index s' =
  {| id := k; fields := f |} :: openCursor prev timestamp_index s.
Proof.
  intros Hrec Hfree Hfirst.
  apply (StronglySorted_unique_strong precedes).
  - intros e1 e2 _ _ H1 H2. destruct (precedes_asym _ _ H1 H2).
  - apply openCursor_prev_sorted.
  - constructor; [apply openCursor_prev_sorted|].
    apply Forall_forall. intros e He. apply Hfirst.
    by apply elem_of_openCursor_prev.
  - by rewrite !openCursor_prev_Permutation, (stored_insert s s' k f).
Qed.

Lemma generator_ahead_free s :
  generator_ahead s → records s !! keyGenerator s = None.
Proof.
  intros Hahead. apply eq_None_not_Some. intros H%Hahead. lia.
Qed.

(** A successful append of the component keeps the key generator ahead
    of the stored ids. *)
Lemma generator_ahead_insert s s' f :
  generator_ahead s →
  records s' = <[keyGenerator s := f]> (records s) →
  keyGenerator s' = (keyGenerator s + 1)%Z →
  generator_ahead s'.
Proof.
  intros Hahead Hrec Hgen k. rewrite Hrec, Hgen, lookup_insert_is_Some.
  intros [<-|[_ H%Hahead]]; lia.
Qed.

End AppendThenRead.

(** C4, as the claim has it, fails: the index orders by timestamp, and the
    timestamp is the clock's.  With entries of 2 and 3 June in the store, an
    entry saved while the clock shows 1 June is stored (id 3) and comes
    last, not first. *)
Lemma append_then_listRecent_counterexample :
  let c := Logger.set_entryText (js "Clock was set back")
             (Logger.quickEntry (js "note") (Logger.set_db connected Logger.new)) in
  let late :=
    {| id := 3;
       fields := {| type := js "note"; content := js "Clock was set back";
                    timestamp := js "2025-06-01T09:00:00.000Z";
                    synced := false |} |} in
  let '(w', c') :=
    Logger.saveEntry (js "2025-06-01T09:00:00.000Z") Healthy Healthy in_use c in
  (LoggerDB.getRecentEntries (Some 1%Z) Healthy w' (Logger.db c')).1
  = Resolved [ {| id := 2; fields := tuesday |} ] ∧
  (LoggerDB.getRecentEntries (Some 10%Z) Healthy w' (Logger.db c')).1
  = Resolved [ {| id := 2; fields := tuesday |};
               {| id := 1; fields := monday |}; late ] ∧
  (∀ rest, (LoggerDB.getRecentEntries (Some 10%Z) Healthy w' (Logger.db c')).1
           ≠ Resolved (late :: rest)).
Proof. vm_compute. repeat split; done. Qed.

(** C4, amended.  On an opened store whose key generator is ahead of the
    stored ids and has a number left: when the text is not blank, the disk
    is healthy and the clock's timestamp is not before the timestamp of any
    stored entry, the component's [saveEntry] stores the entry and a
    following [getRecentEntries(n)], n ≥ 1, returns it first; it is also
    first in the list the component reloaded. *)
Theorem append_then_listRecent_first now w c s n :
  opened w (Logger.db c) s →
  generator_ahead s →
  (keyGenerator s ≤ max_generated)%Z →
  falsy (trim (Logger.entryText c)) = false →
  (∀ e, e ∈ stored s → compare_strings (timestamp (fields e)) now ≠ Gt) →
  (1 ≤ n)%Z →
  let new := {| id := keyGenerator s; fields := obj_fields (entry_of now c) |} in
  let '(w', c') := Logger.saveEntry now Healthy Healthy w c in
  (∃ rest, (LoggerDB.getRecentEntries (Some n) Healthy w' (Logger.db c')).1
           = Resolved (new :: rest)) ∧
  head (Logger.recentEntries c') = Some new.
Proof.
  intros [Hs Hschema] Hahead Hgen Htext Hclock Hn new.
  pose proof Hs as (conn & Hdb & Hnamed)%entries_store_Some.
  pose proof (generator_ahead_free _ Hahead) as Hfree.
  rewrite saveEntry_spec, Htext. cbn zeta.
  rewrite (saveEntry_store _ _ _ _ _ _ Hdb Hnamed).
  pose proof (add_generated s (obj_fields (entry_of now c)) Hschema Hgen Hfree)
    as Hadd.
  change {| obj_id := None; obj_fields := obj_fields (entry_of now c) |}
    with (entry_of now c) in Hadd.
  rewrite Hadd. cbn [fst snd].
  set (s' := {| keyPath := keyPath s; autoIncrement := autoIncrement s;
                indexes := indexes s;
                records := <[keyGenerator s := obj_fields (entry_of now c)]> (records s);
                keyGenerator := (keyGenerator s + 1)%Z |}).
  set (w1 := put_store conn "entries" s' (called (CallSaveEntry (entry_of now c)) w)).
  assert (opened w1 (Logger.db c) s') as Hop1.
  { split; [|done].
    by apply (entries_store_put_store conn s s' (called _ w)). }
  assert (opened (called (CallGetRecentEntries (Some 10%Z)) w1) (Logger.db c) s')
    as Hop2 by done.
  assert (openCursor prev timestamp_index s'
          = new :: openCursor prev timestamp_index s) as Hcursor.
  { apply openCursor_prev_insert; [done..|].
    intros e He. unfold precedes. simpl.
    pose proof (Hclock e He) as Hle.
    rewrite (compare_strings_antisym (timestamp (fields e)) now).
    destruct (compare_strings (timestamp (fields e)) now) eqn:E; [|by left|done].
    right. split; [by apply compare_strings_eq in E|].
    apply Hahead. apply elem_of_stored in He. by rewrite He. }
  rewrite (getRecentEntries_opened _ _ _ _ Hop1). cbn [fst].
  split.
  - rewrite (getRecentEntries_opened _ _ _ _ Hop2). cbn [fst].
    rewrite Hcursor. change (default 10%Z (Some n)) with n.
    destruct (Z.to_nat n) as [|m] eqn:E; [lia|]. simpl. eauto.
  - rewrite Hcursor. done.
Qed.

Lemma append_then_listRecent_first_witness :
  let c := Logger.set_entryText (js "  Fryer is back in service ")
             (Logger.quickEntry (js "note") (Logger.set_db connected Logger.new)) in
  let now := js "2025-06-04T09:00:00.000Z" in
  let new := {| id := 3; fields := obj_fields (entry_of now c) |} in
  let '(w', c') := Logger.saveEntry now Healthy Healthy in_use c in
  (∃ rest, (LoggerDB.getRecentEntries (Some 2%Z) Healthy w' (Logger.db c')).1
           = Resolved (new :: rest)) ∧
  head (Logger.recentEntries c') = Some new.
Proof.
  apply (append_then_listRecent_first (js "2025-06-04T09:00:00.000Z") in_use
           (Logger.set_entryText (js "  Fryer is back in service ")
              (Logger.quickEntry (js "note") (Logger.set_db connected Logger.new)))
           two_entries 2).
  - split; [reflexivity | repeat split].
  - intros k [f Hk]. unfold two_entries in *. simpl in *.
    apply lookup_insert_Some in Hk as [[<- _]|[_ Hk]]; [lia|].
    apply lookup_insert_Some in Hk as [[<- _]|[_ Hk]]; [lia|].
    by rewrite lookup_empty in Hk.
  - vm_compute. discriminate.
  - reflexivity.
  - intros e He. apply elem_of_stored in He. unfold two_entries in He. simpl in He.
    apply lookup_insert_Some in He as [[_ <-]|[_ He]]; [by vm_compute|].
    apply lookup_insert_Some in He as [[_ <-]|[_ He]]; [by vm_compute|].
    by rewrite lookup_empty in He.
  - lia.
Defined.

(** ** The states the program reaches *)

Section Reachable.

Implicit Types (w : World) (c : Logger.t).

Lemma well_kept_called call w : well_kept (called call w) ↔ well_kept w.
Proof. done. Qed.

Lemma well_kept_databases w1 w2 :
  databases w1 = databases w2 → well_kept w1 → well_kept w2.
Proof. unfold well_kept. by intros ->. Qed.

Lemma LoggerDB_init_consistent disk w l :
  well_kept w → l = LoggerDB.new ∨ l = connected →
  let result := LoggerDB.init disk w l in
  well_kept result.1.2 ∧
  ((result.2 = l ∧ databases result.1.2 = databases w) ∨
   (result.2 = connected ∧ is_Some (databases result.1.2 !! "PersonalLogger"))).
Proof.
  intros Hw Hl.
  assert (LoggerDB.dbName l = "PersonalLogger" ∧ LoggerDB.version l = 1%Z)
    as [Hname Hver] by (by destruct Hl as [->| ->]).
  unfold LoggerDB.init, idb_open. rewrite Hname, Hver. simpl.
  destruct disk; [|by split; [|left]].
  unfold well_kept in Hw.
  destruct (databases w !! "PersonalLogger") as [d|] eqn:Hd; simpl.
  - destruct Hw as [Hv Hs]. rewrite Hv. simpl. split.
    + unfold well_kept. simpl. by rewrite Hd.
    + right. simpl. by rewrite Hd.
  - split.
    + unfold well_kept. simpl. rewrite lookup_insert_eq. split; [done|].
      exists empty_entries. split; [done|]. split; [by repeat split|].
      intros k [f Hk]. simpl in Hk. by rewrite lookup_empty in Hk.
    + right. simpl. by rewrite lookup_insert_eq.
Qed.

Lemma LoggerDB_saveEntry_consistent disk entry w l :
  obj_id entry = None →
  well_kept w →
  l = LoggerDB.new ∨ (l = connected ∧ is_Some (databases w !! "PersonalLogger")) →
  let saved := LoggerDB.saveEntry disk entry w l in
  well_kept saved.2 ∧
  (is_Some (databases w !! "PersonalLogger") →
   is_Some (databases saved.2 !! "PersonalLogger")).
Proof.
  intros Hid Hw [->|[-> [d Hd]]]; [done|].
  pose proof Hw as Hw'. unfold well_kept in Hw'. rewrite Hd in Hw'.
  destruct Hw' as (Hv & s & Hstores & Hschema & Hahead).
  assert (named "entries" (objectStores (database "PersonalLogger" w)) = Some s)
    as Hnamed by (unfold database; rewrite Hd; simpl; by rewrite Hstores).
  rewrite (saveEntry_store disk entry w connected "PersonalLogger" s eq_refl Hnamed).
  assert (∀ s', is_Some (databases (put_store "PersonalLogger" "entries" s'
                                      (called (CallSaveEntry entry) w))
                         !! "PersonalLogger")) as Hput.
  { intros s'. unfold put_store. simpl. rewrite lookup_insert_eq. by eexists. }
  destruct (add_cases disk entry s)
    as [->|[[e ->]|(k & gen & -> & _ & Hfree & _ & Hgen & _)]]; cbn [snd].
  - split; [done|]. intros _. simpl. by rewrite Hd.
  - split; [|done].
    eapply well_kept_databases; [|exact Hw].
    symmetry. apply (put_store_same _ _ (called (CallSaveEntry entry) w) Hnamed).
  - split; [|done].
    destruct (Hgen Hid) as [-> ->].
    unfold well_kept, put_store. simpl. rewrite lookup_insert_eq.
    unfold database. simpl. rewrite Hd. simpl. split; [done|].
    eexists. split; [by rewrite Hstores|].
    split; [by destruct Hschema as (? & ? & ?)|].
    by eapply generator_ahead_insert.
Qed.

(** Every step keeps the state consistent. *)
Lemma step_consistent x y : step x y → consistent x → consistent y.
Proof.
  destruct 1 as [open read w c|ty w c|text w c|template w c|w c|now write read w c];
    intros [Hw Hdb]; simpl in *; try done.
  - (* init *)
    unfold Logger.init.
    assert (Logger.db c = LoggerDB.new ∨ Logger.db c = connected) as Hl
      by (destruct Hdb as [?|[? _]]; auto).
    destruct (LoggerDB_init_consistent open w (Logger.db c) Hw Hl) as [Hw1 Hl1].
    destruct (LoggerDB.init open w (Logger.db c)) as [[r w1] l1]. simpl in *.
    assert (l1 = LoggerDB.new ∨
            (l1 = connected ∧ is_Some (databases w1 !! "PersonalLogger"))) as Hdb1.
    { destruct Hl1 as [[-> Hsame]|[-> ?]]; [|by right].
      rewrite Hsame. done. }
    destruct r as [conn|e]; [|by split].
    rewrite loadRecentEntries_spec. split; [done|]. simpl.
    by destruct (LoggerDB.getRecentEntries _ _ _ _).1.
  - (* saveEntry *)
    rewrite saveEntry_spec. destruct (falsy _); [by split|].
    destruct (LoggerDB_saveEntry_consistent write (entry_of now c) w (Logger.db c)
                eq_refl Hw Hdb) as [Hw1 Hsome].
    assert (Logger.db c = LoggerDB.new ∨
            (Logger.db c = connected ∧
             is_Some (databases (LoggerDB.saveEntry write (entry_of now c) w
                                   (Logger.db c)).2 !! "PersonalLogger"))) as Hdb1.
    { destruct Hdb as [?|[? ?]]; [by left|right; auto]. }
    cbn zeta.
    destruct (LoggerDB.saveEntry write (entry_of now c) w (Logger.db c)).1.
    + split; [done|]. simpl.
      by destruct (LoggerDB.getRecentEntries _ _ _ _).1.
    + by split.
Qed.

Lemma rtc_consistent x y : rtc step x y → consistent x → consistent y.
Proof.
  induction 1 as [|x y z Hstep _ IH]; [done|].
  intros Hx. apply IH. by eapply step_consistent.
Qed.

(** From an origin where the database is absent or as the program keeps
    it, a component that holds a connection sees an opened store whose key
    generator is ahead of the stored ids. *)
Lemma reachable_opened w0 w c :
  well_kept w0 →
  rtc step (w0, Logger.new) (w, c) →
  is_Some (LoggerDB.db (Logger.db c)) →
  ∃ s, opened w (Logger.db c) s ∧ generator_ahead s.
Proof.
  intros Hw0 Hrtc Hconn.
  assert (consistent (w, c)) as [Hw Hdb].
  { eapply rtc_consistent; [exact Hrtc|]. split; [done|by left]. }
  simpl in *. destruct Hdb as [Hnew|[Hl [d Hd]]].
  { rewrite Hnew in Hconn. by destruct Hconn. }
  unfold well_kept in Hw. rewrite Hd in Hw.
  destruct Hw as (_ & s & Hstores & Hschema & Hahead).
  exists s. split; [|done]. split; [|done].
  unfold entries_store, database. rewrite Hl. simpl. rewrite Hd. simpl.
  by rewrite Hstores.
Qed.

End Reachable.

(** * Further properties *)

(** ** Trimming *)

Section Trimming.

Implicit Types (s : jsstring).

Lemma trimStart_split s :
  ∃ pre, s = pre ++ trimStart s ∧ forallb is_whitespace pre = true.
Proof.
  induction s as [|c s (pre & IH & Hpre)]; simpl; [by exists []|].
  destruct (is_whitespace c) eqn:E; [|by exists []].
  exists (c :: pre). simpl. rewrite E, Hpre. split; [by f_equal|done].
Qed.

Lemma trimStart_stable s :
  (∀ c, head s = Some c → is_whitespace c = false) → trimStart s = s.
Proof.
  destruct s as [|c s]; simpl; [done|]. intros H. by rewrite (H c eq_refl).
Qed.

Lemma trimEnd_split s :
  ∃ post, s = trimEnd s ++ post ∧ forallb is_whitespace post = true.
Proof.
  unfold trimEnd. destruct (trimStart_split (rev s)) as (pre & Hs & Hpre).
  exists (rev pre). split; [|by rewrite forallb_rev].
  rewrite <-rev_app_distr, <-Hs. by rewrite rev_involutive.
Qed.

Lemma trim_head s c : head (trim s) = Some c → is_whitespace c = false.
Proof.
  unfold trim. destruct (trimEnd_split (trimStart s)) as (post & Hs & _).
  destruct (trimEnd (trimStart s)) as [|c' u] eqn:E; [done|].
  simpl. intros [= ->]. eapply trimStart_head. rewrite Hs. done.
Qed.

Lemma trim_last s c : head (rev (trim s)) = Some c → is_whitespace c = false.
Proof.
  unfold trim, trimEnd. rewrite rev_involutive.
  destruct (trimStart (rev (trimStart s))) as [|c' u] eqn:E; [done|].
  simpl. intros [= ->]. by eapply trimStart_head.
Qed.

Lemma trim_trim s : trim (trim s) = trim s.
Proof.
  unfold trim at 1. rewrite (trimStart_stable (trim s)) by apply trim_head.
  unfold trimEnd. rewrite (trimStart_stable (rev (trim s))) by apply trim_last.
  apply rev_involutive.
Qed.

End Trimming.

(** X1.  [trim] cuts white space off both ends and nothing else: the text
    is the trimmed text between two runs of white space, the trimmed text
    neither starts nor ends with white space, and trimming it again changes
    nothing. *)
Theorem trim_frames (s : jsstring) :
  (∃ pre post, s = pre ++ trim s ++ post ∧
               forallb is_whitespace pre = true ∧
               forallb is_whitespace post = true) ∧
  (∀ c, head (trim s) = Some c ∨ last (trim s) = Some c →
        is_whitespace c = false) ∧
  trim (trim s) = trim s.
Proof.
  split; [|split].
  - destruct (trimStart_split s) as (pre & Hs & Hpre).
    destruct (trimEnd_split (trimStart s)) as (post & Ht & Hpost).
    exists pre, post. split; [|done]. unfold trim. by rewrite <-Ht.
  - intros c [H|H]; [by eapply trim_head|].
    eapply trim_last. by rewrite rev_alt, <-H, <-head_reverse.
  - apply trim_trim.
Qed.

(** ** What a step does to the databases *)

Section Steps.

Implicit Types (w : World) (c : Logger.t) (s : ObjectStore).

Lemma kept_databases w :
  kept w =
  match databases w !! "PersonalLogger" with
  | Some d =>
      match named "entries" (objectStores d) with
      | Some s => records s
      | None => ∅
      end
  | None => ∅
  end.
Proof.
  unfold kept, entries_store, database. simpl.
  by destruct (databases w !! "PersonalLogger").
Qed.

Lemma getRecentEntries_faulty w l s limit :
  opened w l s →
  (LoggerDB.getRecentEntries limit Faulty w l).1 = Rejected UnknownError.
Proof.
  intros [Hs (_ & _ & Hix)]. unfold entries_store in Hs.
  unfold LoggerDB.getRecentEntries.
  destruct (LoggerDB.db l) as [conn|]; [|done].
  change (database conn (called (CallGetRecentEntries limit) w))
    with (database conn w).
  by rewrite (transaction_entries _ _ Hs), Hs, Hix.
Qed.

(** The component's [init] leaves the databases alone, unless the
    program's database is absent: then it creates it, empty. *)
Lemma init_databases open read w c :
  consistent (w, c) →
  let w' := (Logger.init open read w c).1 in
  databases w' = databases w ∨
  (databases w !! "PersonalLogger" = None ∧
   databases w' =
     <["PersonalLogger" := {| db_version := 1;
                              objectStores := [("entries", empty_entries)] |}]>
       (databases w)).
Proof.
  intros [Hw Hdb]. simpl in *. unfold Logger.init.
  assert (LoggerDB.dbName (Logger.db c) = "PersonalLogger" ∧
          LoggerDB.version (Logger.db c) = 1%Z) as [Hname Hver].
  { by destruct Hdb as [->|[-> _]]. }
  assert (∀ r w1 l1, (r, w1, l1) = LoggerDB.init open w (Logger.db c) →
    databases (match r with
               | Resolved _ => Logger.loadRecentEntries read w1 (Logger.set_db l1 c)
               | Rejected _ =>
                   (w1, Logger.showToastMessage (js "Failed to initialize app")
                          (Logger.set_db l1 c))
               end).1 = databases w1) as Hload.
  { intros [conn|e] w1 l1 _; [|done]. by rewrite loadRecentEntries_spec. }
  destruct (LoggerDB.init open w (Logger.db c)) as [[r w1] l1] eqn:Hinit.
  specialize (Hload r w1 l1 eq_refl).
  assert (databases w1 = databases w ∨
          (databases w !! "PersonalLogger" = None ∧
           databases w1 =
             <["PersonalLogger" := {| db_version := 1;
                                      objectStores := [("entries", empty_entries)] |}]>
               (databases w))) as Hcases.
  { revert Hinit. unfold LoggerDB.init, idb_open. rewrite Hname, Hver. simpl.
    destruct open; [|by intros [= <- <- <-]; left].
    unfold well_kept in Hw.
    destruct (databases w !! "PersonalLogger") as [d|] eqn:Hd; simpl.
    - destruct Hw as [-> _]. simpl. intros [= <- <- <-]. by left.
    - intros [= <- <- <-]. by right. }
  by rewrite Hload.
Qed.

(** The component's [saveEntry] leaves the databases alone, unless it
    stores the entry: then the one change is the new record, under the key
    generator's number. *)
Lemma save_databases now write read w c :
  consistent (w, c) →
  let w' := (Logger.saveEntry now write read w c).1 in
  databases w' = databases w ∨
  (∃ d s,
     databases w !! "PersonalLogger" = Some d ∧
     objectStores d = [("entries", s)] ∧
     entries_schema s ∧ generator_ahead s ∧
     falsy (trim (Logger.entryText c)) = false ∧
     write = Healthy ∧ Logger.db c = connected ∧
     (keyGenerator s ≤ max_generated)%Z ∧
     databases w' =
       <["PersonalLogger" :=
           {| db_version := db_version d;
              objectStores :=
                [("entries", next_store s (obj_fields (entry_of now c)))] |}]>
         (databases w)).
Proof.
  intros [Hw Hdb]. simpl in *. rewrite saveEntry_spec.
  destruct (falsy (trim (Logger.entryText c))) eqn:Htext; [by left|].
  cbn zeta.
  assert (∀ saved : Promise (Request Z) * World,
    databases (match saved.1 with
               | Resolved _ =>
                   (called (CallGetRecentEntries (Some 10%Z)) saved.2,
                    Logger.set_isLoading false
                      (Logger.showToastMessage (js "Entry saved successfully")
                         (Logger.closeModal
                            match (LoggerDB.getRecentEntries (Some 10%Z) read saved.2
                                     (Logger.db c)).1 with
                            | Resolved es =>
                                Logger.set_recentEntries es
                                  (Logger.set_isLoading true c)
                            | Rejected _ => Logger.set_isLoading true c
                            end)))
               | Rejected _ =>
                   (saved.2,
                    Logger.set_isLoading false
                      (Logger.showToastMessage (js "Failed to save entry")
                         (Logger.set_isLoading true c)))
               end).1 = databases saved.2) as Hfinal.
  { intros [[r|e] w1]; done. }
  rewrite Hfinal. clear Hfinal.
  destruct Hdb as [Hnew|[Hconn [d Hd]]].
  { left. rewrite Hnew. done. }
  pose proof Hw as Hw'. unfold well_kept in Hw'. rewrite Hd in Hw'.
  destruct Hw' as (Hv & s & Hstores & Hschema & Hahead).
  assert (named "entries" (objectStores (database "PersonalLogger" w)) = Some s)
    as Hnamed by (unfold database; rewrite Hd; simpl; by rewrite Hstores).
  rewrite Hconn.
  rewrite (saveEntry_store write (entry_of now c) w connected "PersonalLogger" s
             eq_refl Hnamed).
  destruct write.
  - destruct (Z.leb_spec (keyGenerator s) max_generated) as [Hgen|Hgen].
    + right. exists d, s. repeat (split; [done|]).
      pose proof (add_generated s (obj_fields (entry_of now c)) Hschema Hgen
                    (generator_ahead_free _ Hahead)) as Hadd.
      change {| obj_id := None; obj_fields := obj_fields (entry_of now c) |}
        with (entry_of now c) in Hadd.
      rewrite Hadd. cbn [snd]. unfold put_store. simpl.
      unfold database. simpl. rewrite Hd. simpl. by rewrite Hstores.
    + left. unfold add, generate_key. simpl.
      destruct Hschema as (_ & -> & _).
      destruct (Z.ltb_spec max_generated (keyGenerator s)); [|lia]. cbn [snd].
      apply (put_store_same _ _ (called (CallSaveEntry (entry_of now c)) w) Hnamed).
  - left. unfold add. simpl. destruct Hschema as (_ & -> & _). cbn [snd].
    apply (put_store_same _ _ (called (CallSaveEntry (entry_of now c)) w) Hnamed).
Qed.

(** Every step leaves the databases alone, creates the empty database, or
    adds one record as [saveEntry] does. *)
Lemma step_databases x y :
  step x y → consistent x →
  databases y.1 = databases x.1 ∨
  (databases x.1 !! "PersonalLogger" = None ∧
   databases y.1 =
     <["PersonalLogger" := {| db_version := 1;
                              objectStores := [("entries", empty_entries)] |}]>
       (databases x.1)) ∨
  (∃ d s f,
     databases x.1 !! "PersonalLogger" = Some d ∧
     objectStores d = [("entries", s)] ∧
     entries_schema s ∧ generator_ahead s ∧ normalized f ∧
     databases y.1 =
       <["PersonalLogger" :=
           {| db_version := db_version d;
              objectStores := [("entries", next_store s f)] |}]>
         (databases x.1)).
Proof.
  destruct 1 as [open read w c|ty w c|text w c|template w c|w c|now write read w c];
    intros Hx; simpl; try by left.
  - destruct (init_databases open read w c Hx) as [?|?]; auto.
  - destruct (save_databases now write read w c Hx)
      as [?|(d & s & ? & ? & ? & ? & Htext & _ & _ & _ & ?)]; [by left|].
    right. right. exists d, s, (obj_fields (entry_of now c)).
    repeat (split; [done|]). split; [|done].
    split; [done|]. simpl. split.
    + by destruct (trim (Logger.entryText c)).
    + apply trim_trim.
Qed.

End Steps.

(** ** Invariants of the store *)

Section Invariants.

Implicit Types (w : World) (c : Logger.t) (s : ObjectStore).

Lemma rtc_invariant (I : World * Logger.t → Prop) :
  (∀ x y, step x y → consistent x → I x → I y) →
  ∀ x y, rtc step x y → consistent x → I x → I y.
Proof.
  intros Hstep x y Hrtc. induction Hrtc as [|x y z Hxy _ IH]; [done|].
  intros Hx HI. apply IH; [by eapply step_consistent|by eapply Hstep].
Qed.

Lemma kept_stores w d s :
  databases w !! "PersonalLogger" = Some d →
  objectStores d = [("entries", s)] → kept w = records s.
Proof. intros Hd Hs. by rewrite kept_databases, Hd, Hs. Qed.

Lemma kept_absent w : databases w !! "PersonalLogger" = None → kept w = ∅.
Proof. intros Hd. by rewrite kept_databases, Hd. Qed.

(** A step never removes or changes a record. *)
Lemma step_kept x y k f :
  step x y → consistent x → kept x.1 !! k = Some f → kept y.1 !! k = Some f.
Proof.
  intros Hstep Hx.
  destruct (step_databases x y Hstep Hx)
    as [Hsame|[[Hnone Hnew]|(d & s & f' & Hd & Hs & _ & Hahead & _ & Hnew)]].
  - by rewrite !kept_databases, Hsame.
  - by rewrite (kept_absent _ Hnone), lookup_empty.
  - rewrite (kept_stores _ _ _ Hd Hs).
    rewrite (kept_stores y.1 _ (next_store s f')
               ltac:(rewrite Hnew; apply lookup_insert_eq) eq_refl).
    simpl. intros Hk. rewrite lookup_insert_ne; [done|].
    intros <-. rewrite (generator_ahead_free _ Hahead) in Hk. done.
Qed.

Lemma rtc_kept x y k f :
  rtc step x y → consistent x → kept x.1 !! k = Some f → kept y.1 !! k = Some f.
Proof.
  induction 1 as [|x y z Hxy _ IH]; [done|].
  intros Hx Hk. apply IH; [by eapply step_consistent|by eapply step_kept].
Qed.

(** A property of stores that the empty store has and that adding a
    normalized record under the generator's number keeps, holds of the
    program's store for good. *)
Lemma store_invariant (P : ObjectStore → Prop) :
  P empty_entries →
  (∀ s f, entries_schema s → generator_ahead s → normalized f → P s →
          P (next_store s f)) →
  ∀ x y, rtc step x y → consistent x → store_holds P x.1 → store_holds P y.1.
Proof.
  intros Hempty Hnext. apply rtc_invariant. intros x y Hstep Hx HP.
  destruct (step_databases x y Hstep Hx)
    as [Hsame|[[Hnone Hnew]|(d & s & f & Hd & Hs & Hschema & Hahead & Hf & Hnew)]];
    intros d' s' Hd' Hs'.
  - rewrite Hsame in Hd'. eauto.
  - rewrite Hnew, lookup_insert_eq in Hd'. injection Hd' as <-.
    simpl in Hs'. by injection Hs' as <-.
  - rewrite Hnew, lookup_insert_eq in Hd'. injection Hd' as <-.
    simpl in Hs'. injection Hs' as <-. apply Hnext; eauto.
Qed.

Lemma dense_next s f : dense s → dense (next_store s f).
Proof.
  intros [Hgen Hids].
  assert (records s !! keyGenerator s = None) as Hfree.
  { apply eq_None_not_Some. intros H%Hids. lia. }
  unfold dense. simpl. rewrite (map_size_insert_None _ _ _ Hfree).
  split; [lia|]. intros k. rewrite lookup_insert_is_Some, Hids. lia.
Qed.

Lemma dense_empty : dense empty_entries.
Proof.
  split; [done|]. intros k. simpl. rewrite lookup_empty, map_size_empty.
  split; [by intros [??]|lia].
Qed.

Lemma consistent_program_store w c s :
  consistent (w, c) → entries_store w connected = Some s →
  ∃ d, databases w !! "PersonalLogger" = Some d ∧
       objectStores d = [("entries", s)].
Proof.
  intros [Hw _]. unfold entries_store, database, well_kept in *. simpl in *.
  destruct (databases w !! "PersonalLogger") as [d|]; [|done].
  destruct Hw as (_ & s' & Hs' & _). simpl. rewrite Hs'. simpl.
  intros [= <-]. eauto.
Qed.

Lemma store_holds_absent P w :
  databases w !! "PersonalLogger" = None → store_holds P w.
Proof. intros Hd d s Hd'. by rewrite Hd in Hd'. Qed.

Lemma consistent_absent w :
  databases w !! "PersonalLogger" = None → consistent (w, Logger.new).
Proof.
  intros Hd. split; [|by left]. unfold well_kept. simpl. by rewrite Hd.
Qed.

End Invariants.

(** X2.  The store is append-only: along every run of the component from
    its initial state, a record that is in the program's store stays there
    with the same fields; no step removes or rewrites it. *)
Theorem store_append_only w0 w1 c1 w2 c2 k f :
  well_kept w0 →
  rtc step (w0, Logger.new) (w1, c1) →
  rtc step (w1, c1) (w2, c2) →
  kept w1 !! k = Some f → kept w2 !! k = Some f.
Proof.
  intros Hw0 Hrun1 Hrun2.
  assert (consistent (w1, c1)) as H1.
  { eapply rtc_consistent; [exact Hrun1|]. split; [done|by left]. }
  by apply (rtc_kept (w1, c1) (w2, c2)).
Qed.

Section SampleRun.

Lemma run_started : rtc step (fresh, Logger.new) (started.1, started.2).
Proof.
  rewrite <-surjective_pairing. apply rtc_once. apply step_init.
Qed.

Lemma run_save now w c ty text :
  rtc step (w, c)
    (Logger.saveEntry now Healthy Healthy w
       (Logger.set_entryText text (Logger.quickEntry ty c))).
Proof.
  eapply rtc_l; [apply step_quickEntry|].
  eapply rtc_l; [apply step_input|].
  apply rtc_once. apply step_saveEntry.
Qed.

Lemma run_saved_once :
  rtc step (fresh, Logger.new) (saved_once.1, saved_once.2).
Proof.
  etrans; [apply run_started|].
  rewrite <-(surjective_pairing saved_once). apply run_save.
Qed.

Lemma run_saved_twice :
  rtc step (saved_once.1, saved_once.2) (saved_twice.1, saved_twice.2).
Proof.
  rewrite <-(surjective_pairing saved_twice). apply run_save.
Qed.

End SampleRun.

Lemma store_append_only_witness :
  kept saved_twice.1 !! 1%Z
  = Some {| type := js "issue"; content := js "Spill in aisle 3";
            timestamp := js "2025-06-04T09:00:00.000Z"; synced := false |}.
Proof.
  apply (store_append_only fresh saved_once.1 saved_once.2
           saved_twice.1 saved_twice.2).
  - exact I.
  - exact run_saved_once.
  - exact run_saved_twice.
  - vm_compute. reflexivity.
Defined.

(** X3.  On an origin that had no database, the ids in the store are
    always 1, 2, ..., n without a gap, n the number of stored entries, and
    the key generator is at n + 1, whatever the component was made to do
    and whichever operations the disk refused: an append that fails uses
    up no id. *)
Theorem ids_without_gaps w0 w c s :
  databases w0 !! "PersonalLogger" = None →
  rtc step (w0, Logger.new) (w, c) →
  entries_store w connected = Some s →
  dense s.
Proof.
  intros Hnone Hrun Hs.
  pose proof (consistent_absent _ Hnone) as H0.
  destruct (consistent_program_store w c s) as (d & Hd & Hstores);
    [by eapply rtc_consistent|done|].
  refine (store_invariant dense dense_empty _ _ _ Hrun H0 _ d s Hd Hstores).
  - intros s' f _ _ _. apply dense_next.
  - by apply store_holds_absent.
Qed.

Lemma ids_without_gaps_witness :
  ∃ s, entries_store saved_twice.1 connected = Some s ∧ dense s.
Proof.
  eexists. split; [vm_compute; reflexivity|].
  apply (ids_without_gaps fresh saved_twice.1 saved_twice.2).
  - reflexivity.
  - etrans; [exact run_saved_once|exact run_saved_twice].
  - vm_compute. reflexivity.
Defined.

(** X4.  On an origin that had no database, every stored entry is as the
    component writes entries: [synced] is false, and the content is not
    empty and has no white space at its ends. *)
Theorem stored_entries_normalized w0 w c k f :
  databases w0 !! "PersonalLogger" = None →
  rtc step (w0, Logger.new) (w, c) →
  kept w !! k = Some f →
  normalized f.
Proof.
  intros Hnone Hrun Hk.
  pose proof (consistent_absent _ Hnone) as H0.
  assert (store_holds (λ s, ∀ k f, records s !! k = Some f → normalized f) w)
    as Hall.
  { refine (store_invariant _ _ _ _ _ Hrun H0 _).
    - intros k' f'. simpl. by rewrite lookup_empty.
    - intros s f' _ _ Hf' IH k' f''. simpl.
      intros [[_ <-]|[_ ?]]%lookup_insert_Some; eauto.
    - by apply store_holds_absent. }
  rewrite kept_databases in Hk.
  destruct (databases w !! "PersonalLogger") as [d|] eqn:Hd;
    [|by rewrite lookup_empty in Hk].
  assert (consistent (w, c)) as [Hw _] by (by eapply rtc_consistent).
  unfold well_kept in Hw. simpl in Hw. rewrite Hd in Hw.
  destruct Hw as (_ & s & Hs & _). rewrite Hs in Hk. simpl in Hk.
  by eapply Hall.
Qed.

Lemma stored_entries_normalized_witness :
  normalized {| type := js "issue"; content := js "Spill in aisle 3";
                timestamp := js "2025-06-04T09:00:00.000Z"; synced := false |}.
Proof.
  apply (stored_entries_normalized fresh saved_twice.1 saved_twice.2 1).
  - reflexivity.
  - etrans; [exact run_saved_once|exact run_saved_twice].
  - vm_compute. reflexivity.
Defined.

(** ** The list the component shows *)

Section Shown.

Implicit Types (w : World) (c : Logger.t) (s : ObjectStore).

Lemma consistent_opened w c :
  consistent (w, c) → is_Some (LoggerDB.db (Logger.db c)) →
  ∃ s, opened w (Logger.db c) s ∧ Logger.db c = connected ∧ kept w = records s.
Proof.
  intros [Hw Hdb] Hconn. simpl in *. destruct Hdb as [Hnew|[Hl [d Hd]]].
  { rewrite Hnew in Hconn. by destruct Hconn. }
  unfold well_kept in Hw. rewrite Hd in Hw.
  destruct Hw as (_ & s & Hstores & Hschema & _).
  exists s. split; [|split; [done|by eapply kept_stores]].
  split; [|done].
  unfold entries_store, database. rewrite Hl. simpl. rewrite Hd. simpl.
  by rewrite Hstores.
Qed.

(** What a read that resolves has returned. *)
Lemma getRecentEntries_resolved limit disk w c es :
  consistent (w, c) →
  (LoggerDB.getRecentEntries limit disk w (Logger.db c)).1 = Resolved es →
  ∃ s, kept w = records s ∧
       es = take (Z.to_nat (default 10%Z limit)) (openCursor prev timestamp_index s).
Proof.
  intros Hx Hres.
  destruct (LoggerDB.db (Logger.db c)) as [conn|] eqn:Hconn.
  - destruct (consistent_opened w c Hx) as (s & Hop & _ & Hkept); [by rewrite Hconn|].
    exists s. split; [done|]. destruct disk.
    + rewrite (getRecentEntries_opened _ _ _ _ Hop) in Hres. by injection Hres.
    + by rewrite (getRecentEntries_faulty _ _ _ _ Hop) in Hres.
  - unfold LoggerDB.getRecentEntries in Hres. by rewrite Hconn in Hres.
Qed.

Lemma consistent_db w w' c c' :
  databases w' = databases w → Logger.db c' = Logger.db c →
  consistent (w, c) → consistent (w', c').
Proof.
  unfold consistent, well_kept. simpl. by intros -> ->.
Qed.

(** A step leaves the list alone or replaces it by the ten most recent
    entries of the store as the step leaves it. *)
Lemma step_recentEntries x y :
  step x y → consistent x →
  Logger.recentEntries y.2 = Logger.recentEntries x.2 ∨
  ∃ s, kept y.1 = records s ∧
       Logger.recentEntries y.2 = take 10 (openCursor prev timestamp_index s).
Proof.
  intros Hstep Hx. pose proof (step_consistent _ _ Hstep Hx) as Hy.
  destruct Hstep
    as [open read w c|ty w c|text w c|template w c|w c|now write read w c];
    simpl in *; try by left.
  - (* init *)
    unfold Logger.init in *.
    destruct (LoggerDB.init open w (Logger.db c)) as [[[conn|e] w1] l1];
      [|by left].
    rewrite loadRecentEntries_spec in *. simpl in *.
    destruct (LoggerDB.getRecentEntries (Some 10%Z) read w1 l1).1 as [es|e] eqn:Hres;
      [|by left].
    right.
    destruct (getRecentEntries_resolved (Some 10%Z) read w1 (Logger.set_db l1 c) es)
      as (s & Hkept & ->); [|done|by exists s].
    revert Hy. by apply consistent_db.
  - (* saveEntry *)
    rewrite saveEntry_spec in *.
    destruct (falsy (trim (Logger.entryText c))); [by left|]. cbn zeta in *.
    destruct (LoggerDB.saveEntry write (entry_of now c) w (Logger.db c))
      as [[r|e] w1]; simpl in *; [|by left].
    destruct (LoggerDB.getRecentEntries (Some 10%Z) read w1 (Logger.db c)).1
      as [es|e] eqn:Hres; [|by left].
    right.
    destruct (getRecentEntries_resolved (Some 10%Z) read w1 c es)
      as (s & Hkept & ->); [|done|by exists s].
    revert Hy. by apply consistent_db.
Qed.

Lemma step_shown x y : step x y → consistent x → shown x → shown y.
Proof.
  intros Hstep Hx (Hlen & Hsorted & Hstored).
  destruct (step_recentEntries x y Hstep Hx) as [Hsame|(s & Hkept & Hnew)].
  - unfold shown. rewrite Hsame. repeat split; [done..|].
    intros e He. eapply step_kept; eauto.
  - unfold shown. rewrite Hnew, Hkept. repeat split.
    + rewrite length_take. lia.
    + apply StronglySorted_take, openCursor_prev_sorted.
    + intros e (i & He & _)%elem_of_take. apply elem_of_stored.
      apply elem_of_openCursor_prev. by eapply list_elem_of_lookup_2.
Qed.

End Shown.

(** X5.  Whatever the component was made to do since its initial state and
    whichever operations failed, the list it shows has at most ten
    entries, is in recency order (later timestamp first, higher id first
    among equal timestamps), and holds nothing but entries that are in the
    store, with their stored fields. *)
Theorem list_shows_stored_entries w0 w c :
  well_kept w0 →
  rtc step (w0, Logger.new) (w, c) →
  shown (w, c).
Proof.
  intros Hw0 Hrun.
  refine (rtc_invariant shown step_shown _ _ Hrun _ _).
  - split; [done|by left].
  - split; [simpl; lia|]. split; [constructor|]. by intros e ?%elem_of_nil.
Qed.

Lemma list_shows_stored_entries_witness :
  shown (saved_twice.1, saved_twice.2).
Proof.
  apply (list_shows_stored_entries fresh saved_twice.1 saved_twice.2).
  - exact I.
  - etrans; [exact run_saved_once|exact run_saved_twice].
Defined.

(** ** More on the recency query *)

(** X6.  [getRecentEntries] returns the most recent entries of the store:
    what it returns are stored entries, none of them twice, and every
    stored entry it leaves out comes after each returned one in the recency
    order. *)
Theorem listRecent_most_recent w l s limit :
  opened w l s →
  ∃ es, (LoggerDB.getRecentEntries limit Healthy w l).1 = Resolved es ∧
        NoDup es ∧
        (∀ e, e ∈ es → records s !! id e = Some (fields e)) ∧
        (∀ e e', e ∈ es → records s !! id e' = Some (fields e') → e' ∉ es →
                 precedes e e').
Proof.
  intros Hop. rewrite (getRecentEntries_opened _ _ _ _ Hop). cbn [fst].
  set (n := Z.to_nat (default 10%Z limit)).
  set (L := openCursor prev timestamp_index s).
  eexists. split; [done|]. split; [|split].
  - apply (sublist_NoDup _ L); [|apply sublist_take].
    unfold L. rewrite openCursor_prev_Permutation.
    apply (NoDup_fmap_1 id), stored_ids_NoDup.
  - intros e He. apply elem_of_stored, elem_of_openCursor_prev. fold L.
    rewrite <-(take_drop n L), elem_of_app. by left.
  - intros e e' He He' Hout.
    pose proof (openCursor_prev_sorted s) as Hsorted. fold L in Hsorted.
    rewrite <-(take_drop n L) in Hsorted.
    eapply StronglySorted_app_1_elem_of; [exact Hsorted|done|].
    apply elem_of_stored, elem_of_openCursor_prev in He'. fold L in He'.
    rewrite <-(take_drop n L), elem_of_app in He'. by destruct He'.
Qed.

Lemma listRecent_most_recent_witness :
  ∃ es, (LoggerDB.getRecentEntries (Some 1%Z) Healthy in_use connected).1
        = Resolved es ∧
        NoDup es ∧
        (∀ e, e ∈ es → records two_entries !! id e = Some (fields e)) ∧
        (∀ e e', e ∈ es → records two_entries !! id e' = Some (fields e') →
                 e' ∉ es → precedes e e').
Proof.
  apply (listRecent_most_recent in_use connected two_entries (Some 1%Z)).
  split; [reflexivity | repeat split].
Defined.

(** X7.  Asking for more entries only extends the list: the answer for a
    limit is the beginning of the answer for any larger limit. *)
Theorem listRecent_prefix w l s n m :
  opened w l s → (n ≤ m)%Z →
  ∃ es es',
    (LoggerDB.getRecentEntries (Some n) Healthy w l).1 = Resolved es ∧
    (LoggerDB.getRecentEntries (Some m) Healthy w l).1 = Resolved es' ∧
    es = take (Z.to_nat n) es'.
Proof.
  intros Hop Hle. rewrite !(getRecentEntries_opened _ _ _ _ Hop). cbn [fst].
  eexists _, _. split; [done|]. split; [done|]. simpl.
  rewrite take_take. f_equal. lia.
Qed.

Lemma listRecent_prefix_witness :
  ∃ es es',
    (LoggerDB.getRecentEntries (Some 1%Z) Healthy in_use connected).1 = Resolved es ∧
    (LoggerDB.getRecentEntries (Some 10%Z) Healthy in_use connected).1 = Resolved es' ∧
    es = take (Z.to_nat 1) es'.
Proof.
  apply (listRecent_prefix in_use connected two_entries 1 10).
  - split; [reflexivity | repeat split].
  - lia.
Defined.

(** ** Saving one entry after the other *)

Section SaveMany.

Implicit Types (w : World) (c : Logger.t) (s : ObjectStore).

(** What a save that goes through leaves behind. *)
Lemma save_opened now w c s :
  opened w (Logger.db c) s → generator_ahead s →
  (keyGenerator s ≤ max_generated)%Z →
  falsy (trim (Logger.entryText c)) = false →
  let saved := Logger.saveEntry now Healthy Healthy w c in
  let s' := next_store s (obj_fields (entry_of now c)) in
  opened saved.1 (Logger.db saved.2) s' ∧
  generator_ahead s' ∧
  Logger.recentEntries saved.2 = take 10 (openCursor prev timestamp_index s') ∧
  Logger.showModal saved.2 = false ∧ Logger.entryText saved.2 = [] ∧
  Logger.currentType saved.2 = [] ∧ Logger.isLoading saved.2 = false ∧
  Logger.toastMessage saved.2 = js "Entry saved successfully".
Proof.
  intros [Hs Hschema] Hahead Hgen Htext. cbn zeta.
  pose proof Hs as (conn & Hdb & Hnamed)%entries_store_Some.
  pose proof (generator_ahead_free _ Hahead) as Hfree.
  rewrite saveEntry_spec, Htext. cbn zeta.
  rewrite (saveEntry_store _ _ _ _ _ _ Hdb Hnamed).
  pose proof (add_generated s (obj_fields (entry_of now c)) Hschema Hgen Hfree)
    as Hadd.
  change {| obj_id := None; obj_fields := obj_fields (entry_of now c) |}
    with (entry_of now c) in Hadd.
  rewrite Hadd. cbn [fst snd].
  fold (next_store s (obj_fields (entry_of now c))).
  set (s' := next_store s (obj_fields (entry_of now c))).
  set (w1 := put_store conn "entries" s' (called (CallSaveEntry (entry_of now c)) w)).
  assert (opened w1 (Logger.db c) s') as Hop1.
  { split; [|done]. by apply (entries_store_put_store conn s s' (called _ w)). }
  rewrite (getRecentEntries_opened _ _ _ _ Hop1). cbn [fst]. simpl.
  split; [done|]. split; [|done].
  by eapply generator_ahead_insert.
Qed.

Lemma elem_of_stored_next s f e :
  records s !! keyGenerator s = None →
  e ∈ stored (next_store s f) ↔
  e = {| id := keyGenerator s; fields := f |} ∨ e ∈ stored s.
Proof.
  intros Hfree. rewrite !elem_of_stored. simpl. rewrite lookup_insert_Some.
  split.
  - intros [[Hid Hf]|[_ ?]]; [left|by right]. destruct e; simpl in *; by subst.
  - intros [->|He]; [by left|right]. split; [|done].
    intros Heq. rewrite <-Heq, Hfree in He. done.
Qed.

Lemma saveMany_listing script : ∀ w c s,
  opened w (Logger.db c) s → generator_ahead s →
  (keyGenerator s + Z.of_nat (length script) ≤ max_generated + 1)%Z →
  Forall (λ item, falsy (trim item.1.2) = false) script →
  (∀ e item, e ∈ stored s → item ∈ script →
             compare_strings (timestamp (fields e)) item.2 ≠ Gt) →
  StronglySorted (λ a b, compare_strings a.2 b.2 ≠ Gt) script →
  let final := saveMany script w c in
  ∃ s', opened final.1 (Logger.db final.2) s' ∧
        openCursor prev timestamp_index s' =
        reverse (entries_from (keyGenerator s) script) ++
        openCursor prev timestamp_index s.
Proof.
  induction script as [|[[ty text] now] script IH];
    intros w c s Hop Hahead Hgen Htexts Hold Hsorted; cbn zeta.
  { exists s. by split. }
  apply Forall_cons in Htexts as [Htext Htexts]. simpl in Htext.
  apply StronglySorted_inv in Hsorted as [Hsorted Hnow].
  simpl in Hgen.
  set (c0 := Logger.set_entryText text (Logger.quickEntry ty c)).
  set (f := {| type := ty; content := trim text; timestamp := now;
               synced := false |}).
  pose proof (save_opened now w c0 s Hop Hahead ltac:(lia) Htext)
    as (Hop1 & Hahead1 & _).
  change (obj_fields (entry_of now c0)) with f in *.
  simpl. fold c0.
  destruct (Logger.saveEntry now Healthy Healthy w c0) as [w1 c1]. simpl in *.
  pose proof (generator_ahead_free _ Hahead) as Hfree.
  destruct (IH w1 c1 (next_store s f) Hop1 Hahead1) as (s' & Hop' & Hcursor).
  - simpl. lia.
  - done.
  - intros e item He Hitem.
    apply (elem_of_stored_next s f e Hfree) in He as [->|He].
    + simpl. rewrite Forall_forall in Hnow. by apply Hnow.
    + apply Hold; [done|by right].
  - done.
  - exists s'. split; [done|]. rewrite Hcursor. simpl.
    rewrite reverse_cons, <-app_assoc. simpl. f_equal.
    apply openCursor_prev_insert; [done..|].
    intros e He. unfold precedes. simpl.
    pose proof (Hold e (ty, text, now) He ltac:(by left)) as Hle. simpl in Hle.
    rewrite (compare_strings_antisym (timestamp (fields e)) now).
    destruct (compare_strings (timestamp (fields e)) now) eqn:E; [|by left|done].
    right. split; [by apply compare_strings_eq in E|].
    apply Hahead. apply elem_of_stored in He. by rewrite He.
Qed.

End SaveMany.

(** X8.  Entries saved one after the other while the clock does not go
    back are listed newest first: after the saves, [getRecentEntries(n)]
    returns the first n of the new entries in the reverse of the order they
    were saved in, with ids counting up from the key generator's number,
    followed by what the store listed before. *)
Theorem saved_in_a_row_listed_newest_first script w c s n :
  opened w (Logger.db c) s → generator_ahead s →
  (keyGenerator s + Z.of_nat (length script) ≤ max_generated + 1)%Z →
  Forall (λ item, falsy (trim item.1.2) = false) script →
  (∀ e item, e ∈ stored s → item ∈ script →
             compare_strings (timestamp (fields e)) item.2 ≠ Gt) →
  StronglySorted (λ a b, compare_strings a.2 b.2 ≠ Gt) script →
  let final := saveMany script w c in
  (LoggerDB.getRecentEntries (Some n) Healthy final.1 (Logger.db final.2)).1
  = Resolved (take (Z.to_nat n)
                (reverse (entries_from (keyGenerator s) script) ++
                 openCursor prev timestamp_index s)).
Proof.
  intros Hop Hahead Hgen Htexts Hold Hsorted. cbn zeta.
  destruct (saveMany_listing script w c s Hop Hahead Hgen Htexts Hold Hsorted)
    as (s' & Hop' & Hcursor).
  rewrite (getRecentEntries_opened _ _ _ _ Hop'). cbn [fst]. by rewrite Hcursor.
Qed.

Section TwoEntries.

Lemma two_entries_ahead : generator_ahead two_entries.
Proof.
  intros k [f Hk]. unfold two_entries in *. simpl in *.
  apply lookup_insert_Some in Hk as [[<- _]|[_ Hk]]; [lia|].
  apply lookup_insert_Some in Hk as [[<- _]|[_ Hk]]; [lia|].
  by rewrite lookup_empty in Hk.
Qed.

Lemma two_entries_stored e :
  e ∈ stored two_entries →
  e = {| id := 2; fields := tuesday |} ∨ e = {| id := 1; fields := monday |}.
Proof.
  intros He%elem_of_stored. unfold two_entries in He. simpl in He.
  destruct e as [k f]. simpl in He.
  apply lookup_insert_Some in He as [[<- <-]|[_ He]]; [by left|].
  apply lookup_insert_Some in He as [[<- <-]|[_ He]]; [by right|].
  by rewrite lookup_empty in He.
Qed.

Lemma in_use_well_kept : well_kept in_use.
Proof.
  unfold well_kept, in_use. simpl. rewrite lookup_singleton_eq.
  split; [done|]. exists two_entries. split; [done|].
  split; [by repeat split|apply two_entries_ahead].
Qed.

End TwoEntries.

Lemma saved_in_a_row_listed_newest_first_witness :
  let script :=
    [ (js "note", js " Fryer is back in service ", js "2025-06-04T09:00:00.000Z");
      (js "task", js "Call supplier", js "2025-06-04T09:00:00.000Z") ] in
  let final := saveMany script in_use (Logger.set_db connected Logger.new) in
  (LoggerDB.getRecentEntries (Some 3%Z) Healthy final.1 (Logger.db final.2)).1
  = Resolved (take (Z.to_nat 3)
                (reverse (entries_from (keyGenerator two_entries) script) ++
                 openCursor prev timestamp_index two_entries)).
Proof.
  apply (saved_in_a_row_listed_newest_first
           [ (js "note", js " Fryer is back in service ",
              js "2025-06-04T09:00:00.000Z");
             (js "task", js "Call supplier", js "2025-06-04T09:00:00.000Z") ]
           in_use (Logger.set_db connected Logger.new) two_entries 3).
  - split; [reflexivity | repeat split].
  - apply two_entries_ahead.
  - vm_compute. discriminate.
  - repeat constructor.
  - intros e item [->| ->]%two_entries_stored Hitem;
      repeat (apply elem_of_cons in Hitem as [->|Hitem]; [by vm_compute|]);
      by apply elem_of_nil in Hitem.
  - repeat constructor; by vm_compute.
Defined.

(** ** Start-up and its failures *)

(** X9.  The first start-up on an origin creates the database: version 1,
    the one store ['entries'] with key path ['id'], a key generator at 1 and
    the indexes ['timestamp'] and ['type'], no record; no other database
    is touched, the connection is held, and the first read returns an
    empty list. *)
Theorem first_init_creates_database w limit :
  databases w !! "PersonalLogger" = None →
  let result := LoggerDB.init Healthy w LoggerDB.new in
  result.1.1 = Resolved "PersonalLogger" ∧
  result.2 = connected ∧
  databases result.1.2 =
    <["PersonalLogger" := {| db_version := 1;
                             objectStores := [("entries", empty_entries)] |}]>
      (databases w) ∧
  (LoggerDB.getRecentEntries limit Healthy result.1.2 result.2).1 = Resolved [].
Proof.
  intros Hnone. cbn zeta.
  assert (LoggerDB.init Healthy w LoggerDB.new =
          (Resolved "PersonalLogger",
           {| databases :=
                <["PersonalLogger" :=
                    {| db_version := 1;
                       objectStores := [("entries", empty_entries)] |}]>
                  (databases w);
              calls := calls w ++ [CallInit] |},
           connected)) as ->.
  { unfold LoggerDB.init, idb_open. simpl. by rewrite Hnone. }
  cbn [fst snd]. repeat (split; [done|]).
  rewrite (getRecentEntries_opened _ connected empty_entries).
  - cbn [fst]. f_equal. apply length_zero_iff_nil.
    rewrite length_take, length_openCursor_prev. simpl. rewrite map_size_empty. lia.
  - split; [|by repeat split].
    unfold entries_store, database. simpl. by rewrite lookup_insert_eq.
Qed.

Lemma first_init_creates_database_witness :
  let result := LoggerDB.init Healthy fresh LoggerDB.new in
  result.1.1 = Resolved "PersonalLogger" ∧
  result.2 = connected ∧
  databases result.1.2 =
    <["PersonalLogger" := {| db_version := 1;
                             objectStores := [("entries", empty_entries)] |}]>
      (databases fresh) ∧
  (LoggerDB.getRecentEntries (Some 10%Z) Healthy result.1.2 result.2).1
  = Resolved [].
Proof.
  apply (first_init_creates_database fresh (Some 10%Z)). reflexivity.
Defined.

(** X10.  Start-up fails when the disk refuses to open the database and
    when the database on disk has a version above 1.  Either way nothing
    on disk changes, no read is attempted, the component stays without a
    connection, keeps its list and shows 'Failed to initialize app'. *)
Theorem init_failure open read w c :
  Logger.db c = LoggerDB.new →
  open = Faulty ∨ (1 < db_version (database "PersonalLogger" w))%Z →
  let '(w', c') := Logger.init open read w c in
  databases w' = databases w ∧
  calls w' = calls w ++ [CallInit] ∧
  Logger.db c' = LoggerDB.new ∧
  Logger.recentEntries c' = Logger.recentEntries c ∧
  Logger.showToast c' = true ∧
  Logger.toastMessage c' = js "Failed to initialize app".
Proof.
  intros Hdb Hwhy. unfold Logger.init. rewrite Hdb.
  assert (∃ e, LoggerDB.init open w LoggerDB.new =
               (Rejected e, called CallInit w, LoggerDB.new)) as [e ->].
  { unfold LoggerDB.init, idb_open. simpl. destruct open; [|by eexists].
    destruct Hwhy as [?|Hver]; [done|].
    fold (database "PersonalLogger" w).
    destruct (Z.ltb_spec 1 (db_version (database "PersonalLogger" w))); [|lia].
    by eexists. }
  done.
Qed.

Lemma init_failure_witness :
  let '(w', c') := Logger.init Faulty Healthy in_use Logger.new in
  databases w' = databases in_use ∧
  calls w' = calls in_use ++ [CallInit] ∧
  Logger.db c' = LoggerDB.new ∧
  Logger.recentEntries c' = Logger.recentEntries Logger.new ∧
  Logger.showToast c' = true ∧
  Logger.toastMessage c' = js "Failed to initialize app".
Proof.
  apply (init_failure Faulty Healthy in_use Logger.new).
  - reflexivity.
  - by left.
Defined.

(** X11.  Without a connection (before start-up, or after a start-up that
    failed) a save of a text that is not blank stores nothing and shows
    'Failed to save entry'; the text, the chosen type, the open modal and
    the list are left as they are, so the entry can be saved again, and
    the loading flag is off. *)
Theorem save_without_connection now write read w c :
  LoggerDB.db (Logger.db c) = None →
  falsy (trim (Logger.entryText c)) = false →
  let '(w', c') := Logger.saveEntry now write read w c in
  databases w' = databases w ∧
  calls w' = calls w ++ [CallSaveEntry (entry_of now c)] ∧
  Logger.toastMessage c' = js "Failed to save entry" ∧
  Logger.entryText c' = Logger.entryText c ∧
  Logger.currentType c' = Logger.currentType c ∧
  Logger.showModal c' = Logger.showModal c ∧
  Logger.recentEntries c' = Logger.recentEntries c ∧
  Logger.isLoading c' = false.
Proof.
  intros Hdb Htext. rewrite saveEntry_spec, Htext. cbn zeta.
  unfold LoggerDB.saveEntry. rewrite Hdb. done.
Qed.

Lemma save_without_connection_witness :
  let c := Logger.set_entryText (js "Spill in aisle 3")
             (Logger.quickEntry (js "issue") Logger.new) in
  let now := js "2025-06-04T09:00:00.000Z" in
  let '(w', c') := Logger.saveEntry now Healthy Healthy in_use c in
  databases w' = databases in_use ∧
  calls w' = calls in_use ++ [CallSaveEntry (entry_of now c)] ∧
  Logger.toastMessage c' = js "Failed to save entry" ∧
  Logger.entryText c' = Logger.entryText c ∧
  Logger.currentType c' = Logger.currentType c ∧
  Logger.showModal c' = Logger.showModal c ∧
  Logger.recentEntries c' = Logger.recentEntries c ∧
  Logger.isLoading c' = false.
Proof.
  apply (save_without_connection (js "2025-06-04T09:00:00.000Z") Healthy Healthy
           in_use
           (Logger.set_entryText (js "Spill in aisle 3")
              (Logger.quickEntry (js "issue") Logger.new)));
    reflexivity.
Defined.

(** ** More on writing *)

(** X12.  [LoggerDB.saveEntry] only ever adds: whatever object it is given
    (with or without an id of its own) and whatever the disk does, every
    record of the store is still there afterwards with the same fields, and
    the store has grown by one record if the call got its record stored and
    not at all otherwise. *)
Theorem saveEntry_never_overwrites disk entry w l s :
  entries_store w l = Some s →
  let saved := LoggerDB.saveEntry disk entry w l in
  ∃ s', entries_store saved.2 l = Some s' ∧
        (∀ k f, records s !! k = Some f → records s' !! k = Some f) ∧
        size (records s') =
          (if committed saved.1 then S (size (records s)) else size (records s)).
Proof.
  intros Hs. cbn zeta. unfold committed.
  destruct (assigned (LoggerDB.saveEntry disk entry w l).1) as [k|] eqn:Hk.
  - apply saveEntry_committed in Hk
      as (s0 & s' & Hs0 & Hs' & _ & Hfree & Hrec & _).
    rewrite Hs in Hs0. injection Hs0 as <-.
    exists s'. split; [done|]. rewrite Hrec. split.
    + intros k' f Hk'. rewrite lookup_insert_ne; [done|].
      intros <-. by rewrite Hfree in Hk'.
    + by apply map_size_insert_None.
  - assert (committed (LoggerDB.saveEntry disk entry w l).1 = false) as Hc
      by (unfold committed; by rewrite Hk).
    apply saveEntry_not_committed in Hc.
    exists s. by rewrite (entries_store_databases _ _ l Hc).
Qed.

Lemma saveEntry_never_overwrites_witness :
  let taken := {| obj_id := Some 2%Z; obj_fields := monday |} in
  let saved := LoggerDB.saveEntry Healthy taken in_use connected in
  ∃ s', entries_store saved.2 connected = Some s' ∧
        (∀ k f, records two_entries !! k = Some f → records s' !! k = Some f) ∧
        size (records s') =
          (if committed saved.1 then S (size (records two_entries))
           else size (records two_entries)).
Proof.
  apply (saveEntry_never_overwrites Healthy
           {| obj_id := Some 2%Z; obj_fields := monday |}
           in_use connected two_entries).
  reflexivity.
Defined.

(** X13.  An append whose record does not get stored is invisible: when
    the storage call throws, or is rejected by validation, or its add
    request fails (a disk that refuses the write, an exhausted key
    generator), the component's [saveEntry] leaves every database as it
    was, the store holds the same records, and every later read returns
    what it would have returned before. *)
Theorem unstored_append_is_invisible now write read w c :
  committed (LoggerDB.saveEntry write (entry_of now c) w (Logger.db c)).1 = false →
  let '(w', c') := Logger.saveEntry now write read w c in
  databases w' = databases w ∧
  kept w' = kept w ∧
  (∀ limit disk,
     (LoggerDB.getRecentEntries limit disk w' (Logger.db c')).1
     = (LoggerDB.getRecentEntries limit disk w (Logger.db c)).1).
Proof.
  intros Hfail. pose proof (append_not_stored now write read w c Hfail) as H.
  destruct (Logger.saveEntry now write read w c) as [w' c'].
  destruct H as (Hdbs & _ & Hreads & _).
  split; [done|]. split; [|done]. by rewrite !kept_databases, Hdbs.
Qed.

Lemma unstored_append_is_invisible_witness :
  let c := Logger.set_entryText (js "Spill in aisle 3")
             (Logger.quickEntry (js "issue")
                (Logger.set_db connected Logger.new)) in
  let '(w', c') :=
    Logger.saveEntry (js "2025-06-04T09:00:00.000Z") Faulty Healthy in_use c in
  databases w' = databases in_use ∧
  kept w' = kept in_use ∧
  (∀ limit disk,
     (LoggerDB.getRecentEntries limit disk w' (Logger.db c')).1
     = (LoggerDB.getRecentEntries limit disk in_use (Logger.db c)).1).
Proof.
  apply (unstored_append_is_invisible (js "2025-06-04T09:00:00.000Z") Faulty Healthy
           in_use
           (Logger.set_entryText (js "Spill in aisle 3")
              (Logger.quickEntry (js "issue")
                 (Logger.set_db connected Logger.new)))).
  reflexivity.
Defined.

(** X14.  The schema is set once and for all.  From an origin where the
    program's database is absent or as the program keeps it, every run of
    the component leaves it absent or with version 1 and the single store
    ['entries'] with the key path, key generator and two indexes [init]
    gives it, the generator ahead of every stored id; and a component that
    holds a connection holds it to such a database. *)
Theorem schema_is_kept w0 w c :
  well_kept w0 →
  rtc step (w0, Logger.new) (w, c) →
  well_kept w ∧
  (is_Some (LoggerDB.db (Logger.db c)) →
   ∃ s, opened w (Logger.db c) s ∧ generator_ahead s ∧ kept w = records s).
Proof.
  intros Hw0 Hrun.
  assert (consistent (w, c)) as Hx.
  { eapply rtc_consistent; [exact Hrun|]. split; [done|by left]. }
  split; [apply Hx|]. intros Hconn.
  destruct (consistent_opened w c Hx Hconn) as (s & Hop & _ & Hkept).
  destruct (reachable_opened w0 w c Hw0 Hrun Hconn) as (s' & Hop' & Hahead).
  exists s. split; [done|]. split; [|done].
  destruct Hop as [Hs _], Hop' as [Hs' _]. rewrite Hs in Hs'.
  by injection Hs' as <-.
Qed.

Lemma schema_is_kept_witness :
  well_kept saved_twice.1 ∧
  (is_Some (LoggerDB.db (Logger.db saved_twice.2)) →
   ∃ s, opened saved_twice.1 (Logger.db saved_twice.2) s ∧ generator_ahead s ∧
        kept saved_twice.1 = records s).
Proof.
  apply (schema_is_kept fresh saved_twice.1 saved_twice.2).
  - exact I.
  - etrans; [exact run_saved_once|exact run_saved_twice].
Defined.

(** ** The time label *)

(** X15.  [formatTime] shows 'Just now' for everything younger than a
    minute, and so for every timestamp that lies in the future of the
    clock. *)
Theorem formatTime_just_now toLocaleDateString t now :
  (now - t < 60000)%Z →
  formatTime toLocaleDateString (Some t) now = js "Just now".
Proof.
  intros Hyoung. unfold formatTime. cbn zeta.
  destruct (Z.ltb_spec ((now - t) `div` 60000) 1) as [|Hmins]; [done|].
  exfalso. revert Hmins. Z.to_euclidean_division_equations. lia.
Qed.

Lemma formatTime_just_now_witness :
  formatTime (λ _, js "6/4/2025") (Some 1749027600000%Z) 1749027000000%Z
  = js "Just now".
Proof.
  apply (formatTime_just_now (λ _, js "6/4/2025") 1749027600000 1749027000000).
  lia.
Defined.

(** X16.  From one minute up to a day [formatTime] counts whole minutes,
    then whole hours, rounding down: 'm ago' carries a number from 1 to 59,
    the full minutes elapsed, and 'h ago' a number from 1 to 23, the full
    hours elapsed. *)
Theorem formatTime_relative toLocaleDateString t now :
  (60000 ≤ now - t < 86400000)%Z →
  ∃ n unit,
    formatTime toLocaleDateString (Some t) now = number n ++ unit ∧
    ((unit = js "m ago" ∧ (1 ≤ n ≤ 59)%Z ∧
      (n * 60000 ≤ now - t < (n + 1) * 60000)%Z) ∨
     (unit = js "h ago" ∧ (1 ≤ n ≤ 23)%Z ∧
      (n * 3600000 ≤ now - t < (n + 1) * 3600000)%Z)).
Proof.
  intros Hage. unfold formatTime. cbn zeta.
  destruct (Z.ltb_spec ((now - t) `div` 60000) 1) as [Hlt|Hmins].
  { exfalso. revert Hlt. Z.to_euclidean_division_equations. lia. }
  destruct (Z.ltb_spec ((now - t) `div` 60000) 60) as [Hm|Hm].
  - eexists _, _. split; [done|]. left. split; [done|].
    revert Hmins Hm. Z.to_euclidean_division_equations. lia.
  - destruct (Z.ltb_spec ((now - t) `div` 60000) 1440) as [Hh|Hh].
    + eexists _, _. split; [done|]. right. split; [done|].
      rewrite Z.div_div by lia. change (60000 * 60)%Z with 3600000%Z.
      revert Hm Hh. Z.to_euclidean_division_equations. lia.
    + exfalso. revert Hh. Z.to_euclidean_division_equations. lia.
Qed.

Lemma formatTime_relative_witness :
  ∃ n unit,
    formatTime (λ _, js "6/4/2025") (Some 1749020000000%Z) 1749027599999%Z
    = number n ++ unit ∧
    ((unit = js "m ago" ∧ (1 ≤ n ≤ 59)%Z ∧
      (n * 60000 ≤ 1749027599999 - 1749020000000 < (n + 1) * 60000)%Z) ∨
     (unit = js "h ago" ∧ (1 ≤ n ≤ 23)%Z ∧
      (n * 3600000 ≤ 1749027599999 - 1749020000000 < (n + 1) * 3600000)%Z)).
Proof.
  apply (formatTime_relative (λ _, js "6/4/2025") 1749020000000 1749027599999).
  lia.
Defined.

(** X17.  For an entry of a day or more ago, and for a timestamp that does
    not parse as a date, [formatTime] gives no relative label: it returns
    what the locale makes of the date. *)
Theorem formatTime_date toLocaleDateString date now :
  (∀ t, date = Some t → (86400000 ≤ now - t)%Z) →
  formatTime toLocaleDateString date now = toLocaleDateString date.
Proof.
  intros Hold. unfold formatTime. destruct date as [t|]; [|done].
  specialize (Hold t eq_refl). cbn zeta.
  destruct (Z.ltb_spec ((now - t) `div` 60000) 1) as [H|_].
  { exfalso. revert H. Z.to_euclidean_division_equations. lia. }
  destruct (Z.ltb_spec ((now - t) `div` 60000) 60) as [H|_].
  { exfalso. revert H. Z.to_euclidean_division_equations. lia. }
  destruct (Z.ltb_spec ((now - t) `div` 60000) 1440) as [H|_]; [|done].
  exfalso. revert H. Z.to_euclidean_division_equations. lia.
Qed.

Lemma formatTime_date_witness :
  formatTime (λ d, if d is Some _ then js "6/3/2025" else js "Invalid Date")
    (Some 1748941200000%Z) 1749027600000%Z
  = js "6/3/2025".
Proof.
  apply (formatTime_date
           (λ d, if d is Some _ then js "6/3/2025" else js "Invalid Date")
           (Some 1748941200000%Z) 1749027600000).
  intros t [= <-]. lia.
Defined.

(** ** Toasts and their timers *)

Section Toasts.

Implicit Types (x : Toast.t).

Lemma toast_handle_pending x e :
  (Logger.showToast (Toast.page x) = true → 0 < Toast.pending x) →
  Logger.showToast (Toast.page (Toast.handle x e)) = true →
  0 < Toast.pending (Toast.handle x e).
Proof.
  destruct e as [message|]; simpl; [lia|].
  unfold Toast.timeout. destruct (Toast.pending x) eqn:E; simpl; [|done].
  rewrite E. auto.
Qed.

Lemma toast_timeouts_hide n x :
  0 < n → n ≤ Toast.pending x →
  Logger.showToast (Toast.page (Nat.iter n Toast.timeout x)) = false.
Proof.
  revert x. induction n as [|n IH]; intros x Hpos Hn; [lia|].
  rewrite Nat.iter_succ_r. unfold Toast.timeout at 2.
  destruct (Toast.pending x) as [|p] eqn:E; [lia|].
  destruct n as [|n']; [done|]. apply IH; [lia|simpl; lia].
Qed.

End Toasts.

(** X18.  A toast never stays for good.  However toasts and timeouts
    follow each other, while a toast is showing a timeout is still pending,
    and once all pending timeouts have fired no toast is showing. *)
Theorem toast_goes_away events x :
  (Logger.showToast (Toast.page x) = true → 0 < Toast.pending x) →
  let y := Toast.run events x in
  (Logger.showToast (Toast.page y) = true → 0 < Toast.pending y) ∧
  Logger.showToast
    (Toast.page (Nat.iter (Toast.pending y) Toast.timeout y)) = false.
Proof.
  intros Hx. cbn zeta.
  assert (Logger.showToast (Toast.page (Toast.run events x)) = true →
          0 < Toast.pending (Toast.run events x)) as Hy.
  { revert x Hx. unfold Toast.run.
    induction events as [|e events IH]; intros x Hx; [done|].
    simpl. apply IH. by apply toast_handle_pending. }
  split; [done|].
  destruct (Toast.pending (Toast.run events x)) as [|p] eqn:E.
  - simpl. destruct (Logger.showToast (Toast.page (Toast.run events x)));
      [|done]. specialize (Hy eq_refl). lia.
  - apply toast_timeouts_hide; lia.
Qed.

Lemma toast_goes_away_witness :
  let x := {| Toast.page := Logger.new; Toast.pending := 0 |} in
  let y := Toast.run [Toast.Shown (js "Back online"); Toast.Elapsed;
                      Toast.Shown (js "Working offline")] x in
  (Logger.showToast (Toast.page y) = true → 0 < Toast.pending y) ∧
  Logger.showToast
    (Toast.page (Nat.iter (Toast.pending y) Toast.timeout y)) = false.
Proof.
  apply (toast_goes_away
           [Toast.Shown (js "Back online"); Toast.Elapsed;
            Toast.Shown (js "Working offline")]
           {| Toast.page := Logger.new; Toast.pending := 0 |}).
  discriminate.
Defined.

(** X19.  The timeouts are never cancelled, so a toast can be cut short: a
    message shown while the timeout of an earlier toast is pending is
    hidden when that timeout fires, although its own timeout is still to
    come. *)
Theorem toast_cut_short message x :
  0 < Toast.pending x →
  let y := Toast.timeout (Toast.showToastMessage message x) in
  Logger.toastMessage (Toast.page y) = message ∧
  Logger.showToast (Toast.page y) = false ∧
  Toast.pending y = Toast.pending x.
Proof. done. Qed.

Lemma toast_cut_short_witness :
  let x := Toast.showToastMessage (js "Entry saved successfully")
             {| Toast.page := Logger.new; Toast.pending := 0 |} in
  let y := Toast.timeout (Toast.showToastMessage (js "Working offline") x) in
  Logger.toastMessage (Toast.page y) = js "Working offline" ∧
  Logger.showToast (Toast.page y) = false ∧
  Toast.pending y = Toast.pending x.
Proof.
  apply (toast_cut_short (js "Working offline")
           (Toast.showToastMessage (js "Entry saved successfully")
              {| Toast.page := Logger.new; Toast.pending := 0 |})).
  simpl. lia.
Defined.

(** ** Dictation *)

(** X20.  What is dictated replaces what was typed, and is saved like
    typed text: after a recognition session that returned [transcript],
    nothing is being recorded, the text is the transcript alone, and a save
    hands the storage engine the trimmed transcript under the chosen type,
    or makes no storage call at all when the transcript is blank. *)
Theorem dictation_is_saved_trimmed now write read w x transcript :
  Voice.voiceSupported x = true →
  let heard := Voice.onend (Voice.onresult transcript (Voice.startVoiceInput x)) in
  Voice.isRecording heard = false ∧
  Logger.entryText (Voice.page heard) = transcript ∧
  calls (Logger.saveEntry now write read w (Voice.page heard)).1 =
    if falsy (trim transcript) then calls w
    else
      let entry :=
        {| obj_id := None;
           obj_fields := {| type := Logger.currentType (Voice.page x);
                            content := trim transcript;
                            timestamp := now; synced := false |} |} in
      calls w ++ [CallSaveEntry entry] ++
      match (LoggerDB.saveEntry write entry w (Logger.db (Voice.page x))).1 with
      | Resolved _ => [CallGetRecentEntries (Some 10%Z)]
      | Rejected _ => []
      end.
Proof.
  intros Hsupported. cbn zeta. unfold Voice.startVoiceInput. rewrite Hsupported.
  simpl. split; [done|]. split; [done|]. by rewrite component_calls.
Qed.

Lemma dictation_is_saved_trimmed_witness :
  let x := {| Voice.page := Logger.quickEntry (js "issue")
                              (Logger.set_db connected Logger.new);
              Voice.isRecording := false; Voice.voiceSupported := true |} in
  let now := js "2025-06-04T09:00:00.000Z" in
  let transcript := js " spill in aisle three" in
  let heard := Voice.onend (Voice.onresult transcript (Voice.startVoiceInput x)) in
  Voice.isRecording heard = false ∧
  Logger.entryText (Voice.page heard) = transcript ∧
  calls (Logger.saveEntry now Healthy Healthy in_use (Voice.page heard)).1 =
    if falsy (trim transcript) then calls in_use
    else
      let entry :=
        {| obj_id := None;
           obj_fields := {| type := Logger.currentType (Voice.page x);
                            content := trim transcript;
                            timestamp := now; synced := false |} |} in
      calls in_use ++ [CallSaveEntry entry] ++
      match (LoggerDB.saveEntry Healthy entry in_use
               (Logger.db (Voice.page x))).1 with
      | Resolved _ => [CallGetRecentEntries (Some 10%Z)]
      | Rejected _ => []
      end.
Proof.
  apply (dictation_is_saved_trimmed (js "2025-06-04T09:00:00.000Z") Healthy Healthy
           in_use
           {| Voice.page := Logger.quickEntry (js "issue")
                              (Logger.set_db connected Logger.new);
              Voice.isRecording := false; Voice.voiceSupported := true |}
           (js " spill in aisle three")).
  reflexivity.
Defined.

(** ** The server's middleware *)

(** X21.  The middleware redirects exactly the requests that reach a
    production server without the header [x-forwarded-proto: https] (also
    when the header is missing); the target is 'https://', the host and the
    unchanged URL, and a redirected response gets none of the headers.
    Outside production, and for requests forwarded from https, it never
    redirects. *)
Theorem redirect_to_https NODE_ENV req location :
  Server.action (Server.securityHeaders NODE_ENV req) = Server.Redirect location ↔
  NODE_ENV = Some (js "production") ∧
  Server.forwardedProto req ≠ Some (js "https") ∧
  location = js "https://" ++ Server.interpolate (Server.host req) ++ Server.url req ∧
  Server.headers (Server.securityHeaders NODE_ENV req) = [].
Proof.
  unfold Server.securityHeaders.
  destruct (bool_decide_reflect (NODE_ENV = Some (js "production"))) as [Henv|Henv];
    destruct (bool_decide_reflect (Server.forwardedProto req = Some (js "https")))
      as [Hproto|Hproto]; simpl; split;
    try (intros [= <-]); try done; try (by intros (? & ? & ? & ?)).
  by intros (_ & _ & -> & _).
Qed.

(** X22.  Every request the middleware passes on carries the four security
    headers. *)
Theorem security_headers_on_every_response NODE_ENV req :
  Server.action (Server.securityHeaders NODE_ENV req) = Server.Next →
  ∀ h, h ∈ [ (js "X-Content-Type-Options", js "nosniff");
             (js "X-Frame-Options", js "DENY");
             (js "X-XSS-Protection", js "1; mode=block");
             (js "Referrer-Policy", js "strict-origin-when-cross-origin") ] →
       h ∈ Server.headers (Server.securityHeaders NODE_ENV req).
Proof.
  unfold Server.securityHeaders.
  destruct (_ && _); [done|]. intros _ h Hh. cbn [Server.headers].
  apply elem_of_app. by left.
Qed.

Lemma security_headers_on_every_response_witness :
  Server.action
    (Server.securityHeaders (Some (js "production"))
       {| Server.forwardedProto := Some (js "https");
          Server.host := Some (js "logger.example");
          Server.url := js "/sw.js" |}) = Server.Next ∧
  (js "X-Frame-Options", js "DENY")
    ∈ Server.headers
        (Server.securityHeaders (Some (js "production"))
           {| Server.forwardedProto := Some (js "https");
              Server.host := Some (js "logger.example");
              Server.url := js "/sw.js" |}).
Proof.
  split; [reflexivity|].
  apply (security_headers_on_every_response (Some (js "production"))
           {| Server.forwardedProto := Some (js "https");
              Server.host := Some (js "logger.example");
              Server.url := js "/sw.js" |}).
  - reflexivity.
  - apply elem_of_cons. right. apply elem_of_cons. by left.
Defined.

(** X23.  The headers for the service worker and for the manifest go to an
    exact URL only: the response has a [Cache-Control] header, and a
    [Service-Worker-Allowed] header, if and only if it is passed on and the
    URL is '/sw.js', and a [Content-Type] header if and only if it is passed
    on and the URL is '/manifest.json'; a query string is enough to lose
    them. *)
Theorem exact_url_headers NODE_ENV req :
  let res := Server.securityHeaders NODE_ENV req in
  ((js "Cache-Control", js "no-cache, no-store, must-revalidate")
     ∈ Server.headers res ↔
   Server.action res = Server.Next ∧ Server.url req = js "/sw.js") ∧
  ((js "Service-Worker-Allowed", js "/") ∈ Server.headers res ↔
   Server.action res = Server.Next ∧ Server.url req = js "/sw.js") ∧
  ((js "Content-Type", js "application/manifest+json") ∈ Server.headers res ↔
   Server.action res = Server.Next ∧ Server.url req = js "/manifest.json").
Proof.
  cbn zeta. unfold Server.securityHeaders.
  destruct (_ && _).
  { cbn [Server.headers Server.action].
    repeat apply conj; first [by intros ?%elem_of_nil | by intros [? _]]. }
  cbn [Server.headers Server.action].
  destruct (bool_decide_reflect (Server.url req = js "/sw.js")) as [Hsw|Hsw];
    destruct (bool_decide_reflect (Server.url req = js "/manifest.json"))
      as [Hm|Hm].
  { rewrite Hsw in Hm. by vm_compute in Hm. }
  all: repeat apply conj.
  all: try (by intros [_ ?]).
  all: try (intros _; rewrite !elem_of_app; first
              [ left; by repeat constructor
              | right; left; by repeat constructor
              | right; right; by repeat constructor ]).
  all: rewrite !elem_of_app, !elem_of_cons, !elem_of_nil;
    intros H; try (split; [done|]); try done; exfalso;
    repeat (destruct H as [H|H]); try done; by vm_compute in H.
Qed.

(** ** After a save that went through *)

(** X24.  After a save that went through, the component shows what the
    store returns: the store has the new record under the key generator's
    number, the list of the component is the answer of
    [getRecentEntries(10)] on that store, the modal is closed, text and type
    are cleared, the loading flag is off and the toast says 'Entry saved
    successfully'. *)
Theorem save_refreshes_list now w c s :
  opened w (Logger.db c) s → generator_ahead s →
  (keyGenerator s ≤ max_generated)%Z →
  falsy (trim (Logger.entryText c)) = false →
  let '(w', c') := Logger.saveEntry now Healthy Healthy w c in
  opened w' (Logger.db c') (next_store s (obj_fields (entry_of now c))) ∧
  Resolved (Logger.recentEntries c')
  = (LoggerDB.getRecentEntries (Some 10%Z) Healthy w' (Logger.db c')).1 ∧
  Logger.showModal c' = false ∧ Logger.entryText c' = [] ∧
  Logger.currentType c' = [] ∧ Logger.isLoading c' = false ∧
  Logger.toastMessage c' = js "Entry saved successfully".
Proof.
  intros Hop Hahead Hgen Htext.
  pose proof (save_opened now w c s Hop Hahead Hgen Htext) as Hsaved.
  cbn zeta in Hsaved.
  destruct (Logger.saveEntry now Healthy Healthy w c) as [w' c'].
  destruct Hsaved as (Hop' & _ & Hlist & Hform). cbn [fst snd] in *.
  split; [done|]. split; [|done].
  by rewrite (getRecentEntries_opened _ _ _ _ Hop'), Hlist.
Qed.

Lemma save_refreshes_list_witness :
  let c := Logger.set_entryText (js "  Fryer is back in service ")
             (Logger.quickEntry (js "note") (Logger.set_db connected Logger.new)) in
  let now := js "2025-06-04T09:00:00.000Z" in
  let '(w', c') := Logger.saveEntry now Healthy Healthy in_use c in
  opened w' (Logger.db c') (next_store two_entries (obj_fields (entry_of now c))) ∧
  Resolved (Logger.recentEntries c')
  = (LoggerDB.getRecentEntries (Some 10%Z) Healthy w' (Logger.db c')).1 ∧
  Logger.showModal c' = false ∧ Logger.entryText c' = [] ∧
  Logger.currentType c' = [] ∧ Logger.isLoading c' = false ∧
  Logger.toastMessage c' = js "Entry saved successfully".
Proof.
  apply (save_refreshes_list (js "2025-06-04T09:00:00.000Z") in_use
           (Logger.set_entryText (js "  Fryer is back in service ")
              (Logger.quickEntry (js "note") (Logger.set_db connected Logger.new)))
           two_entries).
  - split; [reflexivity | repeat split].
  - apply two_entries_ahead.
  - vm_compute. discriminate.
  - reflexivity.
Defined.
